(** * Banana World canvas: transparency processor and interaction engine

    A shallow embedding of [src/App.tsx] and [src/services/geminiService.ts].

    - [Transparency]: the pixel pass of [processImageForTransparency]
      (chroma key on the top-left pixel, then the tight bounding box).
    - [Coordinates]: the screen/world conversions, written once over an
      arithmetic signature and instantiated at exact rationals and at
      IEEE binary64 (the JavaScript number type).
    - [Scene]: placed objects, hit-testing, scaling, zoom, keyboard moves,
      deletion and generation completions, over exact rationals.
    - [Gemini]: the control flow of [getRemixSuggestions]. *)

From Stdlib Require Import ZArith List Bool Lia.
From Stdlib Require Import QArith Qminmax Qabs Lqa Qfield.
From Stdlib Require Import Floats.
From Stdlib Require Import Ascii String.
Import ListNotations.

(* ================================================================== *)
(** * Transparency processor *)
(* ================================================================== *)

Module Transparency.

Local Open Scope Z_scope.

(** [const COLOR_DISTANCE_THRESHOLD = 20]. *)
Definition COLOR_DISTANCE_THRESHOLD : Z := 20.

(** [ImageData]: the canvas extent and the flat RGBA buffer [data],
    four entries per pixel in row-major order. The image the function
    resolves with is the canvas holding this buffer, re-encoded through
    [toDataURL]; the model identifies it with the buffer. *)
Record ImageData := {
  width : Z;
  height : Z;
  data : list Z
}.

(** [{ x, y, width, height }] in source-pixel coordinates. *)
Record ContentBounds := {
  cbX : Z;
  cbY : Z;
  cbWidth : Z;
  cbHeight : Z
}.

Record ImageProcessingResult := {
  transparentImage : ImageData;
  contentBounds : ContentBounds
}.

(** The running [minX, minY, maxX, maxY] of the bounding-box pass. *)
Record Extremes := {
  minX : Z;
  minY : Z;
  maxX : Z;
  maxY : Z
}.

(** [data[i]] for an index inside the buffer. *)
Definition at_ (d : list Z) (i : Z) : Z := nth (Z.to_nat i) d 0.

(** First pass: [for (let i = 0; i < data.length; i += 4)], writing
    [data[i + 3] = 0] when the squared distance to the background colour
    is strictly below the squared threshold. *)
Fixpoint keyOut (thresholdSquared bgR bgG bgB : Z) (d : list Z) : list Z :=
  match d with
  | r :: g :: b :: a :: rest =>
      let distanceSquared := (r - bgR) ^ 2 + (g - bgG) ^ 2 + (b - bgB) ^ 2 in
      r :: g :: b ::
        (if distanceSquared <? thresholdSquared then 0 else a) ::
        keyOut thresholdSquared bgR bgG bgB rest
  | _ => d
  end.

(** The loop counters [0, 1, ..., n - 1]. *)
Definition upto (n : Z) : list Z := map Z.of_nat (seq 0 (Z.to_nat n)).

(** [data[(y * canvas.width + x) * 4 + 3]]. *)
Definition alphaAt (w : Z) (d : list Z) (x y : Z) : Z :=
  at_ d ((y * w + x) * 4 + 3).

(** Body of the inner loop of the bounding-box pass. *)
Definition visit (w : Z) (d : list Z) (y : Z) (e : Extremes) (x : Z) : Extremes :=
  if alphaAt w d x y >? 0 then
    {| minX := if x <? minX e then x else minX e;
       minY := if y <? minY e then y else minY e;
       maxX := if x >? maxX e then x else maxX e;
       maxY := if y >? maxY e then y else maxY e |}
  else e.

(** [for (let x = 0; x < canvas.width; x++)]. *)
Definition scanRow (w : Z) (d : list Z) (e : Extremes) (y : Z) : Extremes :=
  fold_left (visit w d y) (upto w) e.

(** [for (let y = 0; y < canvas.height; y++)]. *)
Definition scan (w h : Z) (d : list Z) (e : Extremes) : Extremes :=
  fold_left (scanRow w d) (upto h) e.

Definition fullExtent (w h : Z) : ContentBounds :=
  {| cbX := 0; cbY := 0; cbWidth := w; cbHeight := h |}.

(** The ternary computed in [transparentImage.onload]. *)
Definition boundsOf (w h : Z) (e : Extremes) : ContentBounds :=
  if (maxX e >=? minX e) && (maxY e >=? minY e) then
    {| cbX := minX e; cbY := minY e;
       cbWidth := maxX e - minX e + 1; cbHeight := maxY e - minY e + 1 |}
  else fullExtent w h.

(** The [try] block of [img.onload], with the threshold as a parameter
    (the source fixes it to [COLOR_DISTANCE_THRESHOLD]). *)
Definition processPixels (threshold : Z) (img : ImageData) : ImageProcessingResult :=
  let d := data img in
  let bgR := at_ d 0 in
  let bgG := at_ d 1 in
  let bgB := at_ d 2 in
  let colorDistanceThresholdSquared := threshold * threshold in
  let e0 := {| minX := width img; minY := height img; maxX := -1; maxY := -1 |} in
  let d' := keyOut colorDistanceThresholdSquared bgR bgG bgB d in
  let e := scan (width img) (height img) d' e0 in
  {| transparentImage := {| width := width img; height := height img; data := d' |};
     contentBounds := boundsOf (width img) (height img) e |}.

(** What the browser does at the steps the function cannot control:
    [getContext('2d')] returning a context, the [try] block running
    without an exception, and the re-encoded image firing [onload]. *)
Record Browser := {
  has2dContext : bool;
  pixelsReadable : bool;
  dataUrlLoads : bool
}.

Inductive Promise (A : Type) : Type :=
| Resolved (a : A)
| Rejected.
Arguments Resolved {A} a.
Arguments Rejected {A}.

(** [processImageForTransparency]; [decoded] is [None] when [img.onerror]
    fires instead of [img.onload]. *)
Definition processImageWith (threshold : Z) (env : Browser)
    (decoded : option ImageData) : Promise ImageProcessingResult :=
  match decoded with
  | None => Rejected
  | Some img =>
      if negb (has2dContext env) then Rejected
      else if negb (pixelsReadable env) then
        Resolved {| transparentImage := img;
                    contentBounds := fullExtent (width img) (height img) |}
      else if dataUrlLoads env then Resolved (processPixels threshold img)
      else Rejected
  end.

Definition processImageForTransparency :=
  processImageWith COLOR_DISTANCE_THRESHOLD.

(** ** Vocabulary of the statements *)

(** A decoded raster: at least one pixel and a buffer of [4 * w * h] entries. *)
Definition wellFormed (img : ImageData) : Prop :=
  0 < width img /\ 0 < height img /\
  Z.of_nat (List.length (data img)) = 4 * (width img * height img).

Definition inside (img : ImageData) (x y : Z) : Prop :=
  0 <= x < width img /\ 0 <= y < height img.

Definition channel (img : ImageData) (c x y : Z) : Z :=
  at_ (data img) ((y * width img + x) * 4 + c).

Definition alpha (img : ImageData) (x y : Z) : Z := alphaAt (width img) (data img) x y.

(** Squared Euclidean RGB distance of pixel [(x, y)] to the top-left
    pixel [(0, 0)]. *)
Definition distanceSquared (img : ImageData) (x y : Z) : Z :=
  (channel img 0 x y - channel img 0 0 0) ^ 2 +
  (channel img 1 x y - channel img 1 0 0) ^ 2 +
  (channel img 2 x y - channel img 2 0 0) ^ 2.

(** Rectangle [inner] lies within rectangle [outer]. *)
Definition within (inner outer : ContentBounds) : Prop :=
  cbX outer <= cbX inner /\ cbY outer <= cbY inner /\
  cbX inner + cbWidth inner <= cbX outer + cbWidth outer /\
  cbY inner + cbHeight inner <= cbY outer + cbHeight outer.

Definition withinb (inner outer : ContentBounds) : bool :=
  (cbX outer <=? cbX inner) && (cbY outer <=? cbY inner) &&
  (cbX inner + cbWidth inner <=? cbX outer + cbWidth outer) &&
  (cbY inner + cbHeight inner <=? cbY outer + cbHeight outer).

(** The rectangle covers pixel [(x, y)]. *)
Definition covers (b : ContentBounds) (x y : Z) : Prop :=
  cbX b <= x < cbX b + cbWidth b /\ cbY b <= y < cbY b + cbHeight b.

(** Some pixel of [img] is not transparent. *)
Definition anyVisible (img : ImageData) : Prop :=
  exists x y, inside img x y /\ alpha img x y > 0.

(** Rectangle [b] encloses every non-transparent pixel of [img]. *)
Definition encloses (img : ImageData) (b : ContentBounds) : Prop :=
  forall x y, inside img x y -> alpha img x y > 0 -> covers b x y.

(** Rectangle [b] is the minimal one enclosing the non-transparent pixels:
    it encloses them and lies within every rectangle that does. *)
Definition minimalBounds (img : ImageData) (b : ContentBounds) : Prop :=
  encloses img b /\ forall b', encloses img b' -> within b b'.

(** Pixel [(x, y)] of the buffer [d] passes the test [alpha > 0]. *)
Definition visible (w : Z) (d : list Z) (x y : Z) : Prop := alphaAt w d x y > 0.

(** The pixels in the order the nested loops reach them. *)
Definition points (w h : Z) : list (Z * Z) :=
  flat_map (fun y => map (fun x => (x, y)) (upto w)) (upto h).

(** The inner loop body as a step on a pixel. *)
Definition visitPoint (w : Z) (d : list Z) (e : Extremes) (p : Z * Z) : Extremes :=
  visit w d (snd p) e (fst p).

(** ** Sample images *)

(** One row: a white background pixel and a black pixel. *)
Definition twoPixels : ImageData :=
  {| width := 2; height := 1;
     data := [255; 255; 255; 255;  0; 0; 0; 255] |}.

(** One row: a black background pixel, a near-black pixel and a red one. *)
Definition threePixels : ImageData :=
  {| width := 3; height := 1;
     data := [0; 0; 0; 255;  10; 0; 0; 255;  100; 0; 0; 255] |}.

(** One row: a black background pixel and two dark reds, at squared
    distances [19^2 = 361] and [20^2 = 400] from it. *)
Definition boundaryPixels : ImageData :=
  {| width := 3; height := 1;
     data := [0; 0; 0; 255;  19; 0; 0; 255;  20; 0; 0; 255] |}.

(** A browser in which every canvas step succeeds. *)
Definition cooperative : Browser :=
  {| has2dContext := true; pixelsReadable := true; dataUrlLoads := true |}.

End Transparency.

(* ================================================================== *)
(** * Screen and world coordinates *)
(* ================================================================== *)

Module Coordinates.

(** The four arithmetic operations the conversions are written with. *)
Record Arith (num : Type) := {
  add : num -> num -> num;
  sub : num -> num -> num;
  mul : num -> num -> num;
  div : num -> num -> num
}.
Arguments add {num} _ _ _.
Arguments sub {num} _ _ _.
Arguments mul {num} _ _ _.
Arguments div {num} _ _ _.

(** [viewTransform]: [{ scale, offsetX, offsetY }]. *)
Record ViewTransform (num : Type) := {
  scale : num;
  offsetX : num;
  offsetY : num
}.
Arguments scale {num} _.
Arguments offsetX {num} _.
Arguments offsetY {num} _.

Record Point (num : Type) := {
  px : num;
  py : num
}.
Arguments px {num} _.
Arguments py {num} _.

Section Conversions.
Context {num : Type} (A : Arith num).

(** [(screenX - viewTransform.offsetX) / viewTransform.scale], as in
    [getImageAtPosition], [handleInteractionStart] and [handleWheel]. *)
Definition screenToWorld (vt : ViewTransform num) (s : Point num) : Point num :=
  {| px := div A (sub A (px s) (offsetX vt)) (scale vt);
     py := div A (sub A (py s) (offsetY vt)) (scale vt) |}.

(** [world * viewTransform.scale + viewTransform.offset], as in
    [actionBarPosition]. *)
Definition worldToScreen (vt : ViewTransform num) (w : Point num) : Point num :=
  {| px := add A (mul A (px w) (scale vt)) (offsetX vt);
     py := add A (mul A (py w) (scale vt)) (offsetY vt) |}.
End Conversions.

(** Exact rational arithmetic: numbers without rounding. *)
Definition exact : Arith Q :=
  {| add := Qplus; sub := Qminus; mul := Qmult; div := Qdiv |}.

(** IEEE 754 binary64, the arithmetic of a JavaScript [number]. *)
Definition binary64 : Arith float :=
  {| add := PrimFloat.add; sub := PrimFloat.sub;
     mul := PrimFloat.mul; div := PrimFloat.div |}.

(** Two rational points denote the same position. *)
Definition samePoint (p q : Point Q) : Prop :=
  (px p == px q)%Q /\ (py p == py q)%Q.

(** ** Sample values *)

(** Zoomed in to the maximum, no pan; binary64. *)
Definition zoomedIn64 : ViewTransform float :=
  {| scale := 3%float; offsetX := 0%float; offsetY := 0%float |}.

(** The binary64 number nearest to one tenth, in both coordinates. *)
Definition tenth64 : Point float :=
  {| px := 0x1.999999999999ap-4%float; py := 0x1.999999999999ap-4%float |}.

(** Scale 2, panned by [(10, -5)]; exact. *)
Definition panned : ViewTransform Q :=
  {| scale := 2; offsetX := 10; offsetY := -5 |}.

End Coordinates.

(* ================================================================== *)
(** * Scene model and interaction controller *)
(* ================================================================== *)

(* ================================================================== *)
(** * Strings *)
(* ================================================================== *)

Module Text.

(** [s.split(sep)] for a one-character separator. *)
Fixpoint splitOn (sep : Ascii.ascii) (s : string) : list string :=
  match s with
  | EmptyString => [EmptyString]
  | String c rest =>
      if Ascii.eqb c sep then EmptyString :: splitOn sep rest
      else
        match splitOn sep rest with
        | word :: words => String c word :: words
        | [] => [String c EmptyString]
        end
  end.

(** No character of [s] is [c]. *)
Fixpoint lacks (c : Ascii.ascii) (s : string) : bool :=
  match s with
  | EmptyString => true
  | String c' rest => negb (Ascii.eqb c' c) && lacks c rest
  end.

End Text.

(** Numbers are exact rationals: the model leaves out the rounding of
    binary64, and it departs from JavaScript where a division by zero
    occurs ([Qdiv] answers 0, JavaScript [Infinity] or [NaN]). The
    statements about computed coordinates and sizes therefore assume what
    rules such divisions out: a view scale in [[0.2, 3.0]], processed
    images of positive size, pinches between two distinct points. *)

Module Scene.

Import Coordinates.
Local Open Scope Q_scope.

Definition IMAGE_WIDTH : Q := 375.
Definition MOVE_AMOUNT : Q := 25.
Definition MIN_WIDTH : Q := 50.
Definition MAX_WIDTH : Q := 1000.
Definition MIN_SCALE : Q := 0.2.
Definition MAX_SCALE : Q := 3.0.

(** JavaScript [a < b] on numbers. *)
Definition Qltb (a b : Q) : bool := negb (Qle_bool b a).

(** A [File] and an image URL are handles; only their identity matters. *)
Definition File := string.

(** An [HTMLImageElement]: its source and intrinsic size. *)
Record HTMLImageElement := {
  src : string;
  imgWidth : Q;
  imgHeight : Q
}.

(** [contentBounds]: [{ x, y, width, height }]. *)
Record Bounds := {
  bx : Q;
  by_ : Q;
  bwidth : Q;
  bheight : Q
}.

(** [interface ProcessedImage]; optional fields are [option]s. *)
Record ProcessedImage := {
  id : nat;
  sourceFile : option File;
  sourceText : option string;
  processedImage : option HTMLImageElement;
  originalImageUrl : option string;
  showOriginal : option bool;
  x : Q;
  y : Q;
  width : Q;
  height : Q;
  isGenerating : bool;
  contentBounds : Bounds;
  sourcePreviewUrl : option string;
  flippedHorizontally : option bool;
  isVariation : option bool;
  remixSuggestions : option (list string);
  generatingPrompt : option string
}.

(** Truthiness of an optional boolean and of an optional string. *)
Definition truthyBool (b : option bool) : bool :=
  match b with Some true => true | _ => false end.

Definition truthyString (s : option string) : bool :=
  match s with Some EmptyString => false | Some _ => true | None => false end.

(** [{ ...img, x: newX, y: newY }]. *)
Definition withPosition (img : ProcessedImage) (newX newY : Q) : ProcessedImage :=
  {| id := id img; sourceFile := sourceFile img; sourceText := sourceText img;
     processedImage := processedImage img; originalImageUrl := originalImageUrl img;
     showOriginal := showOriginal img;
     x := newX; y := newY; width := width img; height := height img;
     isGenerating := isGenerating img; contentBounds := contentBounds img;
     sourcePreviewUrl := sourcePreviewUrl img;
     flippedHorizontally := flippedHorizontally img; isVariation := isVariation img;
     remixSuggestions := remixSuggestions img; generatingPrompt := generatingPrompt img |}.

(** [{ ...img, width: newWidth, height: newHeight, x: newX, y: newY }]. *)
Definition withGeometry (img : ProcessedImage) (newWidth newHeight newX newY : Q)
    : ProcessedImage :=
  {| id := id img; sourceFile := sourceFile img; sourceText := sourceText img;
     processedImage := processedImage img; originalImageUrl := originalImageUrl img;
     showOriginal := showOriginal img;
     x := newX; y := newY; width := newWidth; height := newHeight;
     isGenerating := isGenerating img; contentBounds := contentBounds img;
     sourcePreviewUrl := sourcePreviewUrl img;
     flippedHorizontally := flippedHorizontally img; isVariation := isVariation img;
     remixSuggestions := remixSuggestions img; generatingPrompt := generatingPrompt img |}.

(** [{ ...img, flippedHorizontally: v }]. *)
Definition withFlipped (img : ProcessedImage) (v : option bool) : ProcessedImage :=
  {| id := id img; sourceFile := sourceFile img; sourceText := sourceText img;
     processedImage := processedImage img; originalImageUrl := originalImageUrl img;
     showOriginal := showOriginal img;
     x := x img; y := y img; width := width img; height := height img;
     isGenerating := isGenerating img; contentBounds := contentBounds img;
     sourcePreviewUrl := sourcePreviewUrl img;
     flippedHorizontally := v; isVariation := isVariation img;
     remixSuggestions := remixSuggestions img; generatingPrompt := generatingPrompt img |}.

(** [{ ...img, showOriginal: v }]. *)
Definition withShowOriginal (img : ProcessedImage) (v : option bool) : ProcessedImage :=
  {| id := id img; sourceFile := sourceFile img; sourceText := sourceText img;
     processedImage := processedImage img; originalImageUrl := originalImageUrl img;
     showOriginal := v;
     x := x img; y := y img; width := width img; height := height img;
     isGenerating := isGenerating img; contentBounds := contentBounds img;
     sourcePreviewUrl := sourcePreviewUrl img;
     flippedHorizontally := flippedHorizontally img; isVariation := isVariation img;
     remixSuggestions := remixSuggestions img; generatingPrompt := generatingPrompt img |}.

(** [{ ...img, isGenerating: true, generatingPrompt: undefined }]. *)
Definition regenerating (img : ProcessedImage) : ProcessedImage :=
  {| id := id img; sourceFile := sourceFile img; sourceText := sourceText img;
     processedImage := processedImage img; originalImageUrl := originalImageUrl img;
     showOriginal := showOriginal img;
     x := x img; y := y img; width := width img; height := height img;
     isGenerating := true; contentBounds := contentBounds img;
     sourcePreviewUrl := sourcePreviewUrl img;
     flippedHorizontally := flippedHorizontally img; isVariation := isVariation img;
     remixSuggestions := remixSuggestions img; generatingPrompt := None |}.

(** [{ ...imageToDuplicate, id: newId, x: x + 40, y: y + 20 }]. *)
Definition duplicated (img : ProcessedImage) (newId : nat) : ProcessedImage :=
  {| id := newId; sourceFile := sourceFile img; sourceText := sourceText img;
     processedImage := processedImage img; originalImageUrl := originalImageUrl img;
     showOriginal := showOriginal img;
     x := x img + 40; y := y img + 20; width := width img; height := height img;
     isGenerating := isGenerating img; contentBounds := contentBounds img;
     sourcePreviewUrl := sourcePreviewUrl img;
     flippedHorizontally := flippedHorizontally img; isVariation := isVariation img;
     remixSuggestions := remixSuggestions img; generatingPrompt := generatingPrompt img |}.

(** ** Hit-testing *)

(** [worldX >= img.x && worldX <= img.x + img.width && worldY >= img.y &&
    worldY <= img.y + img.height]. *)
Definition inRectangle (worldX worldY : Q) (img : ProcessedImage) : bool :=
  Qle_bool (x img) worldX && Qle_bool worldX (x img + width img) &&
  Qle_bool (y img) worldY && Qle_bool worldY (y img + height img).

(** [contentBounds] scaled from source pixels to display size. *)
Definition scaledBounds (img : ProcessedImage) (p : HTMLImageElement) : Bounds :=
  let scaleX := width img / imgWidth p in
  let scaleY := height img / imgHeight p in
  {| bx := bx (contentBounds img) * scaleX;
     by_ := by_ (contentBounds img) * scaleY;
     bwidth := bwidth (contentBounds img) * scaleX;
     bheight := bheight (contentBounds img) * scaleY |}.

(** The inner test of [getImageAtPosition], under
    [if (img.processedImage && img.contentBounds)]. *)
Definition inContent (worldX worldY : Q) (img : ProcessedImage) : bool :=
  match processedImage img with
  | Some p =>
      let localX := worldX - x img in
      let localY := worldY - y img in
      let sb := scaledBounds img p in
      Qle_bool (bx sb) localX && Qle_bool localX (bx sb + bwidth sb) &&
      Qle_bool (by_ sb) localY && Qle_bool localY (by_ sb + bheight sb)
  | None => false
  end.

(** The loop [for (let i = images.length - 1; i >= 0; i--)]; [n] is [i + 1]. *)
Fixpoint scanDown (images : list ProcessedImage) (worldX worldY : Q) (n : nat)
    : option ProcessedImage :=
  match n with
  | O => None
  | S i =>
      match nth_error images i with
      | Some img =>
          if inRectangle worldX worldY img then
            if isGenerating img then Some img
            else if inContent worldX worldY img then Some img
            else scanDown images worldX worldY i
          else scanDown images worldX worldY i
      | None => scanDown images worldX worldY i
      end
  end.

Definition getImageAtPosition (vt : ViewTransform Q) (images : list ProcessedImage)
    (screenX screenY : Q) : option ProcessedImage :=
  let w := screenToWorld exact vt {| px := screenX; py := screenY |} in
  scanDown images (px w) (py w) (List.length images).

(** One candidate's whole test: what makes the loop return [img]. *)
Definition hits (worldX worldY : Q) (img : ProcessedImage) : bool :=
  inRectangle worldX worldY img &&
  (isGenerating img || inContent worldX worldY img).

(** ** Controller state *)

(** [draggingImage]: [{ id, offsetX, offsetY }]. *)
Record Dragging := {
  dragId : nat;
  dragOffsetX : Q;
  dragOffsetY : Q
}.

(** [pinchState]: the source builds it in exactly two shapes, one for an
    object ([id] a number) and one for the canvas ([id: 'canvas']). *)
Inductive PinchState :=
| ObjectPinch (pinchId : nat) (initialDistance initialWidth initialHeight
               centerX centerY : Q)
| CanvasPinch (initialDistance : Q) (initialViewTransform : ViewTransform Q)
              (initialMidPoint : Point Q).

(** The React state the handlers read and write. *)
Record State := {
  images : list ProcessedImage;
  selectedImageId : option nat;
  hoveredImageId : option nat;
  draggingImage : option Dragging;
  isPanning : bool;
  panStart : Point Q;
  viewTransform : ViewTransform Q;
  pinchState : option PinchState;
  nextId : nat
}.

Definition setImages (f : list ProcessedImage -> list ProcessedImage) (st : State) : State :=
  {| images := f (images st); selectedImageId := selectedImageId st;
     hoveredImageId := hoveredImageId st; draggingImage := draggingImage st;
     isPanning := isPanning st; panStart := panStart st;
     viewTransform := viewTransform st; pinchState := pinchState st;
     nextId := nextId st |}.

Definition setSelectedImageId (v : option nat) (st : State) : State :=
  {| images := images st; selectedImageId := v;
     hoveredImageId := hoveredImageId st; draggingImage := draggingImage st;
     isPanning := isPanning st; panStart := panStart st;
     viewTransform := viewTransform st; pinchState := pinchState st;
     nextId := nextId st |}.

Definition setHoveredImageId (v : option nat) (st : State) : State :=
  {| images := images st; selectedImageId := selectedImageId st;
     hoveredImageId := v; draggingImage := draggingImage st;
     isPanning := isPanning st; panStart := panStart st;
     viewTransform := viewTransform st; pinchState := pinchState st;
     nextId := nextId st |}.

Definition setDraggingImage (v : option Dragging) (st : State) : State :=
  {| images := images st; selectedImageId := selectedImageId st;
     hoveredImageId := hoveredImageId st; draggingImage := v;
     isPanning := isPanning st; panStart := panStart st;
     viewTransform := viewTransform st; pinchState := pinchState st;
     nextId := nextId st |}.

Definition setIsPanning (v : bool) (st : State) : State :=
  {| images := images st; selectedImageId := selectedImageId st;
     hoveredImageId := hoveredImageId st; draggingImage := draggingImage st;
     isPanning := v; panStart := panStart st;
     viewTransform := viewTransform st; pinchState := pinchState st;
     nextId := nextId st |}.

Definition setPanStart (v : Point Q) (st : State) : State :=
  {| images := images st; selectedImageId := selectedImageId st;
     hoveredImageId := hoveredImageId st; draggingImage := draggingImage st;
     isPanning := isPanning st; panStart := v;
     viewTransform := viewTransform st; pinchState := pinchState st;
     nextId := nextId st |}.

Definition setViewTransform (v : ViewTransform Q) (st : State) : State :=
  {| images := images st; selectedImageId := selectedImageId st;
     hoveredImageId := hoveredImageId st; draggingImage := draggingImage st;
     isPanning := isPanning st; panStart := panStart st;
     viewTransform := v; pinchState := pinchState st;
     nextId := nextId st |}.

Definition setPinchState (v : option PinchState) (st : State) : State :=
  {| images := images st; selectedImageId := selectedImageId st;
     hoveredImageId := hoveredImageId st; draggingImage := draggingImage st;
     isPanning := isPanning st; panStart := panStart st;
     viewTransform := viewTransform st; pinchState := v;
     nextId := nextId st |}.

Definition setNextId (v : nat) (st : State) : State :=
  {| images := images st; selectedImageId := selectedImageId st;
     hoveredImageId := hoveredImageId st; draggingImage := draggingImage st;
     isPanning := isPanning st; panStart := panStart st;
     viewTransform := viewTransform st; pinchState := pinchState st;
     nextId := v |}.

(** [images.find(img => img.id === k)]. *)
Definition findById (k : nat) (l : list ProcessedImage) : option ProcessedImage :=
  find (fun img => Nat.eqb (id img) k) l.

(** [prev.filter(img => img.id !== k)]. *)
Definition removeId (k : nat) (l : list ProcessedImage) : list ProcessedImage :=
  filter (fun img => negb (Nat.eqb (id img) k)) l.

(** [prev.map(img => img.id === k ? f(img) : img)]. *)
Definition updateId (k : nat) (f : ProcessedImage -> ProcessedImage)
    (l : list ProcessedImage) : list ProcessedImage :=
  map (fun img => if Nat.eqb (id img) k then f img else img) l.

(** The memo [selectedImage]. *)
Definition selectedImage (st : State) : option ProcessedImage :=
  match selectedImageId st with
  | Some k => findById k (images st)
  | None => None
  end.

(** [isActionDisabled = !selectedImage || selectedImage.isGenerating]. *)
Definition isActionDisabled (st : State) : bool :=
  match selectedImage st with
  | Some img => isGenerating img
  | None => true
  end.

(** ** Pointer, wheel and touch handlers *)

(** [getBoundingClientRect()]: the canvas origin in client coordinates. *)
Record DOMRect := {
  left : Q;
  top : Q
}.

Record Touch := {
  clientX : Q;
  clientY : Q
}.

Record WheelEvent := {
  wheelClientX : Q;
  wheelClientY : Q;
  deltaY : Q
}.

(** The two guarded assignments [if (newWidth < MIN_WIDTH) ...;
    if (newWidth > MAX_WIDTH) ...]. *)
Definition clampWidth (newWidth : Q) : Q :=
  let w1 := if Qltb newWidth MIN_WIDTH then MIN_WIDTH else newWidth in
  if Qltb MAX_WIDTH w1 then MAX_WIDTH else w1.

(** [Math.max(MIN_SCALE, Math.min(MAX_SCALE, s))]. *)
Definition clampScale (s : Q) : Q := Qmax MIN_SCALE (Qmin MAX_SCALE s).

(** The object branch of [handleWheel], applied to the target. *)
Definition wheelScaled (scaleFactor : Q) (img : ProcessedImage) : ProcessedImage :=
  let aspectRatio := width img / height img in
  let newWidth := clampWidth (width img * scaleFactor) in
  let newHeight := newWidth / aspectRatio in
  let centerX := x img + width img / 2 in
  let centerY := y img + height img / 2 in
  let newX := centerX - newWidth / 2 in
  let newY := centerY - newHeight / 2 in
  withGeometry img newWidth newHeight newX newY.

(** The object branch of [handleTouchMove], applied to the target. *)
Definition pinchScaled (initialWidth initialHeight centerX centerY scale : Q)
    (img : ProcessedImage) : ProcessedImage :=
  let newWidth := clampWidth (initialWidth * scale) in
  let newHeight := (initialHeight / initialWidth) * newWidth in
  let newX := centerX - newWidth / 2 in
  let newY := centerY - newHeight / 2 in
  withGeometry img newWidth newHeight newX newY.

(** The canvas branch of [handleWheel]: the new view transform. *)
Definition wheelZoom (vt : ViewTransform Q) (x y deltaY : Q) : ViewTransform Q :=
  let scaleAmount := 1.1 in
  let currentScale := scale vt in
  let newScaleUnclamped :=
    if Qltb deltaY 0 then currentScale * scaleAmount else currentScale / scaleAmount in
  let newScale := clampScale newScaleUnclamped in
  let worldX := (x - offsetX vt) / currentScale in
  let worldY := (y - offsetY vt) / currentScale in
  let newOffsetX := x - worldX * newScale in
  let newOffsetY := y - worldY * newScale in
  {| scale := newScale; offsetX := newOffsetX; offsetY := newOffsetY |}.

Definition isSome {A : Type} (o : option A) : bool :=
  match o with Some _ => true | None => false end.

(** [handleWheel]; [rect] is [None] when the canvas is not mounted. *)
Definition handleWheel (rect : option DOMRect) (e : WheelEvent) (st : State) : State :=
  match rect with
  | None => st
  | Some r =>
      let x := wheelClientX e - left r in
      let y := wheelClientY e - top r in
      let targetImage := getImageAtPosition (viewTransform st) (images st) x y in
      let zoomCanvas :=
        if negb (isSome (draggingImage st)) && negb (isPanning st) then
          setViewTransform (wheelZoom (viewTransform st) x y (deltaY e)) st
        else st in
      match targetImage with
      | Some target =>
          if negb (isGenerating target) then
            let SCALE_SPEED := 0.1 in
            let scaleDirection := if Qltb (deltaY e) 0 then 1 else -1 in
            let scaleFactor := 1 + scaleDirection * SCALE_SPEED in
            setImages (updateId (id target) (wheelScaled scaleFactor)) st
          else zoomCanvas
      | None => zoomCanvas
      end
  end.

(** [handleInteractionStart]. *)
Definition handleInteractionStart (rect : option DOMRect) (cx cy : Q) (st : State) : State :=
  match rect with
  | None => st
  | Some r =>
      let x := cx - left r in
      let y := cy - top r in
      match getImageAtPosition (viewTransform st) (images st) x y with
      | Some targetImage =>
          let w := screenToWorld exact (viewTransform st) {| px := x; py := y |} in
          setImages (fun prev => removeId (id targetImage) prev ++ [targetImage])
            (setDraggingImage
               (Some {| dragId := id targetImage;
                        dragOffsetX := px w - Scene.x targetImage;
                        dragOffsetY := py w - Scene.y targetImage |})
               (setSelectedImageId (Some (id targetImage)) st))
      | None =>
          setPanStart {| px := cx; py := cy |}
            (setIsPanning true (setSelectedImageId None st))
      end
  end.

(** [handleInteractionMove]. *)
Definition handleInteractionMove (rect : option DOMRect) (cx cy : Q) (st : State) : State :=
  match rect with
  | None => st
  | Some r =>
      let x := cx - left r in
      let y := cy - top r in
      match draggingImage st with
      | Some d =>
          let w := screenToWorld exact (viewTransform st) {| px := x; py := y |} in
          setImages
            (updateId (dragId d)
               (fun img => withPosition img (px w - dragOffsetX d) (py w - dragOffsetY d)))
            st
      | None =>
          if isPanning st then
            let dx := cx - px (panStart st) in
            let dy := cy - py (panStart st) in
            let prev := viewTransform st in
            setPanStart {| px := cx; py := cy |}
              (setViewTransform
                 {| scale := scale prev;
                    offsetX := offsetX prev + dx;
                    offsetY := offsetY prev + dy |} st)
          else
            match getImageAtPosition (viewTransform st) (images st) x y with
            | Some targetImage =>
                setHoveredImageId
                  (if negb (isGenerating targetImage) then Some (id targetImage) else None) st
            | None => setHoveredImageId None st
            end
      end
  end.

(** [handleInteractionEnd]. *)
Definition handleInteractionEnd (st : State) : State :=
  setIsPanning false (setDraggingImage None st).

Section Touch.
(** [Math.hypot]: its values are in general irrational, so the function
    is a parameter of the touch handlers. *)
Variable hypot : Q -> Q -> Q.

(** [handleTouchStart]. *)
Definition handleTouchStart (rect : option DOMRect) (touches : list Touch)
    (st : State) : State :=
  match rect with
  | None => st
  | Some r =>
      match touches with
      | [t] =>
          if negb (isSome (pinchState st)) then
            handleInteractionStart rect (clientX t) (clientY t) st
          else st
      | [t1; t2] =>
          let st1 := setDraggingImage None st in
          let midX := (clientX t1 + clientX t2) / 2 - left r in
          let midY := (clientY t1 + clientY t2) / 2 - top r in
          let distance := hypot (clientX t1 - clientX t2) (clientY t1 - clientY t2) in
          let canvasPinch :=
            setPinchState
              (Some (CanvasPinch distance (viewTransform st) {| px := midX; py := midY |}))
              st1 in
          match getImageAtPosition (viewTransform st) (images st) midX midY with
          | Some targetImage =>
              if negb (isGenerating targetImage) then
                setImages (fun prev => removeId (id targetImage) prev ++ [targetImage])
                  (setPinchState
                     (Some (ObjectPinch (id targetImage) distance
                              (width targetImage) (height targetImage)
                              (x targetImage + width targetImage / 2)
                              (y targetImage + height targetImage / 2)))
                     st1)
              else canvasPinch
          | None => canvasPinch
          end
      | _ => st
      end
  end.

(** [handleTouchMove]. *)
Definition handleTouchMove (rect : option DOMRect) (touches : list Touch)
    (st : State) : State :=
  match touches with
  | [t] =>
      if negb (isSome (pinchState st)) then
        handleInteractionMove rect (clientX t) (clientY t) st
      else st
  | [t1; t2] =>
      let newDistance := hypot (clientX t1 - clientX t2) (clientY t1 - clientY t2) in
      match pinchState st with
      | None => st
      | Some (ObjectPinch pinchId initialDistance initialWidth initialHeight
                centerX centerY) =>
          let scale := newDistance / initialDistance in
          setImages
            (updateId pinchId
               (pinchScaled initialWidth initialHeight centerX centerY scale))
            st
      | Some (CanvasPinch initialDistance initialViewTransform initialMidPoint) =>
          match rect with
          | None => st
          | Some r =>
              let newMidX := (clientX t1 + clientX t2) / 2 - left r in
              let newMidY := (clientY t1 + clientY t2) / 2 - top r in
              let scaleRatio := newDistance / initialDistance in
              let newScale := clampScale (scale initialViewTransform * scaleRatio) in
              let panDX := newMidX - px initialMidPoint in
              let panDY := newMidY - py initialMidPoint in
              let newOffsetX :=
                offsetX initialViewTransform
                - (px initialMidPoint - offsetX initialViewTransform)
                  * (newScale / scale initialViewTransform - 1)
                + panDX in
              let newOffsetY :=
                offsetY initialViewTransform
                - (py initialMidPoint - offsetY initialViewTransform)
                  * (newScale / scale initialViewTransform - 1)
                + panDY in
              setViewTransform
                {| scale := newScale; offsetX := newOffsetX; offsetY := newOffsetY |} st
          end
      end
  | _ => st
  end.

(** [handleTouchEnd]; [touches] are the touches still down. *)
Definition handleTouchEnd (touches : list Touch) (st : State) : State :=
  let st1 := handleInteractionEnd st in
  if (List.length touches <? 2)%nat then setPinchState None st1 else st1.

(** The handlers attached to the canvas element. *)
Inductive CanvasEvent :=
| MouseDown (cx cy : Q)
| MouseMove (cx cy : Q)
| MouseUp
| Wheel (e : WheelEvent)
| TouchStart (touches : list Touch)
| TouchMove (touches : list Touch)
| TouchEnd (touches : list Touch).

Definition dispatch (rect : option DOMRect) (st : State) (ev : CanvasEvent) : State :=
  match ev with
  | MouseDown cx cy => handleInteractionStart rect cx cy st
  | MouseMove cx cy => handleInteractionMove rect cx cy st
  | MouseUp => handleInteractionEnd st
  | Wheel e => handleWheel rect e st
  | TouchStart ts => handleTouchStart rect ts st
  | TouchMove ts => handleTouchMove rect ts st
  | TouchEnd ts => handleTouchEnd ts st
  end.

(** The state after a sequence of events, oldest first. *)
Definition run (rect : option DOMRect) (evs : list CanvasEvent) (st : State) : State :=
  fold_left (dispatch rect) evs st.

(** A two-finger gesture starts from two distinct touch points. *)
Definition distinctTouches (ev : CanvasEvent) : Prop :=
  match ev with
  | TouchStart [t1; t2] =>
      ~ hypot (clientX t1 - clientX t2) (clientY t1 - clientY t2) == 0
  | _ => True
  end.
End Touch.

(** ** Actions on the selected object *)

(** [handleDeleteSelected] (the sound is not modelled). *)
Definition handleDeleteSelected (st : State) : State :=
  if isActionDisabled st || negb (isSome (selectedImage st)) then st
  else
    match selectedImageId st with
    | Some k => setSelectedImageId None (setImages (removeId k) st)
    | None => setSelectedImageId None st
    end.

(** [handleRegenerateSelected]: the synchronous state update; the request
    it starts settles later through [generateFromImage] or [generateFromText]. *)
Definition handleRegenerateSelected (st : State) : State :=
  if isActionDisabled st || negb (isSome (selectedImage st)) then st
  else
    match selectedImageId st with
    | Some k =>
        match findById k (images st) with
        | Some _ => setImages (updateId k regenerating) st
        | None => st
        end
    | None => st
    end.

(** [handleFlipSelected]. *)
Definition handleFlipSelected (st : State) : State :=
  if isActionDisabled st || negb (isSome (selectedImage st)) then st
  else
    match selectedImageId st with
    | Some k =>
        match findById k (images st) with
        | Some _ =>
            setImages
              (updateId k
                 (fun img =>
                    withFlipped img (Some (negb (truthyBool (flippedHorizontally img))))))
              st
        | None => st
        end
    | None => st
    end.

(** [handleDuplicateSelected] (the image cache is not modelled). *)
Definition handleDuplicateSelected (st : State) : State :=
  if isActionDisabled st || negb (isSome (selectedImage st)) then st
  else
    match selectedImageId st with
    | Some k =>
        match findById k (images st) with
        | Some imageToDuplicate =>
            let newId := nextId st in
            setSelectedImageId (Some newId)
              (setImages (fun prev => prev ++ [duplicated imageToDuplicate newId])
                 (setNextId (S newId) st))
        | None => st
        end
    | None => st
    end.

Local Open Scope string_scope.

Definition arrowKeys : list string :=
  ["ArrowUp"; "ArrowDown"; "ArrowLeft"; "ArrowRight"].

(** [arrowKeys.includes(e.key)]. *)
Definition includes (l : list string) (k : string) : bool :=
  existsb (String.eqb k) l.

(** [handleKeyDown]; [textFieldFocused] says whether [document.activeElement]
    is an [INPUT] or a [TEXTAREA]. *)
Definition handleKeyDown (textFieldFocused : bool) (key : string) (st : State) : State :=
  if textFieldFocused then st
  else if String.eqb key "m" && isSome (selectedImageId st) then
    match selectedImageId st with
    | Some k =>
        setImages
          (map (fun img =>
                  if Nat.eqb (id img) k && truthyString (originalImageUrl img)
                  then withShowOriginal img (Some (negb (truthyBool (showOriginal img))))
                  else img))
          st
    | None => st
    end
  else if negb (isSome (selectedImageId st)) || isActionDisabled st then st
  else if includes arrowKeys key then
    match selectedImageId st with
    | Some k =>
        match findById k (images st) with
        | None => st
        | Some selectedImg =>
            let moveStep := MOVE_AMOUNT / scale (viewTransform st) in
            let newX :=
              if String.eqb key "ArrowLeft" then x selectedImg - moveStep
              else if String.eqb key "ArrowRight" then x selectedImg + moveStep
              else x selectedImg in
            let newY :=
              if String.eqb key "ArrowUp" then y selectedImg - moveStep
              else if String.eqb key "ArrowDown" then y selectedImg + moveStep
              else y selectedImg in
            setImages (updateId k (fun img => withPosition img newX newY)) st
        end
    | None => st
    end
  else if String.eqb key "Delete" || String.eqb key "Backspace" then
    handleDeleteSelected st
  else if String.eqb key "r" then handleRegenerateSelected st
  else if String.eqb key "f" then handleFlipSelected st
  else if String.eqb key "d" then handleDuplicateSelected st
  else st.

Local Close Scope string_scope.

(** ** Generation completions *)

(** How the awaited pipeline of [generateFromImage] / [generateFromText]
    ends: with everything the final update needs, or in the [catch]. *)
Inductive Generation :=
| Succeeded (imageUrl : string) (transparentImage : HTMLImageElement)
            (contentBounds : Bounds) (suggestions : list string)
| Failed.

(** The object written by the success update of [generateFromImage]. *)
Definition completedFromImage (imageUrl : string) (transparentImage : HTMLImageElement)
    (cb : Bounds) (suggestions : list string) (img : ProcessedImage) : ProcessedImage :=
  let aspectRatio := imgWidth transparentImage / imgHeight transparentImage in
  let newWidth := IMAGE_WIDTH in
  let newHeight := IMAGE_WIDTH / aspectRatio in
  let currentCenterX := x img + width img / 2 in
  let currentCenterY := y img + height img / 2 in
  {| id := id img; sourceFile := sourceFile img; sourceText := sourceText img;
     processedImage := Some transparentImage;
     originalImageUrl := Some imageUrl;
     showOriginal := Some false;
     x := currentCenterX - newWidth / 2;
     y := currentCenterY - newHeight / 2;
     width := newWidth; height := newHeight;
     isGenerating := false; contentBounds := cb;
     sourcePreviewUrl := None;
     flippedHorizontally := flippedHorizontally img; isVariation := isVariation img;
     remixSuggestions := Some suggestions; generatingPrompt := None |}.

(** The object written by the success update of [generateFromText]. *)
Definition completedFromText (imageUrl : string) (transparentImage : HTMLImageElement)
    (cb : Bounds) (suggestions : list string) (img : ProcessedImage) : ProcessedImage :=
  let aspectRatio := imgWidth transparentImage / imgHeight transparentImage in
  let newWidth := IMAGE_WIDTH in
  let newHeight := IMAGE_WIDTH / aspectRatio in
  let currentCenterX := x img + width img / 2 in
  let currentCenterY := y img + height img / 2 in
  {| id := id img; sourceFile := sourceFile img; sourceText := sourceText img;
     processedImage := Some transparentImage;
     originalImageUrl := Some imageUrl;
     showOriginal := Some false;
     x := currentCenterX - newWidth / 2;
     y := currentCenterY - newHeight / 2;
     width := newWidth; height := newHeight;
     isGenerating := false; contentBounds := cb;
     sourcePreviewUrl := sourcePreviewUrl img;
     flippedHorizontally := flippedHorizontally img; isVariation := isVariation img;
     remixSuggestions := Some suggestions; generatingPrompt := generatingPrompt img |}.

(** The state update [generateFromImage] performs for object [k] when its
    pipeline settles. *)
Definition generateFromImage (k : nat) (g : Generation) (st : State) : State :=
  match g with
  | Succeeded imageUrl transparentImage cb suggestions =>
      setImages (updateId k (completedFromImage imageUrl transparentImage cb suggestions)) st
  | Failed => setImages (removeId k) st
  end.

(** The state update [generateFromText] performs for object [k]. *)
Definition generateFromText (k : nat) (g : Generation) (st : State) : State :=
  match g with
  | Succeeded imageUrl transparentImage cb suggestions =>
      setImages (updateId k (completedFromText imageUrl transparentImage cb suggestions)) st
  | Failed => setImages (removeId k) st
  end.

(** [handleResetCanvas]. *)
Definition handleResetCanvas (st : State) : State :=
  setViewTransform {| scale := 1; offsetX := 0; offsetY := 0 |}
    (setImages (fun _ => []) st).

(** [actionBarPosition]: [px] is [left], [py] is [top]. *)
Definition actionBarPosition (st : State) : option (Point Q) :=
  match selectedImage st with
  | None => None
  | Some sel =>
      let actionBarWorldX := x sel + width sel / 2 in
      let ringRadiusWorld := Qmin (width sel) (height sel) / 2 * 0.8 in
      let actionBarWorldY :=
        y sel + height sel / 2 + ringRadiusWorld + 15 / scale (viewTransform st) in
      Some (worldToScreen exact (viewTransform st)
              {| px := actionBarWorldX; py := actionBarWorldY |})
  end.

(** ** Vocabulary of the statements *)

(** [lo <= q <= hi]. *)
Definition between (lo hi q : Q) : Prop := lo <= q /\ q <= hi.

(** The object's width is in [[MIN_WIDTH, MAX_WIDTH]]. *)
Definition widthClamped (img : ProcessedImage) : Prop :=
  between MIN_WIDTH MAX_WIDTH (width img).


(** World point [(wx, wy)] is in the object's rectangle. *)
Definition insideRectangle (wx wy : Q) (img : ProcessedImage) : Prop :=
  x img <= wx /\ wx <= x img + width img /\ y img <= wy /\ wy <= y img + height img.

(** World point [(wx, wy)] is in the object's content bounds, scaled from
    the source pixels of [p] to the display size. *)
Definition insideContent (wx wy : Q) (img : ProcessedImage) (p : HTMLImageElement) : Prop :=
  let sb := scaledBounds img p in
  bx sb <= wx - x img /\ wx - x img <= bx sb + bwidth sb /\
  by_ sb <= wy - y img /\ wy - y img <= by_ sb + bheight sb.

(** The view scale is in [[MIN_SCALE, MAX_SCALE]], where the zoom handlers
    keep it. *)
Definition validView (vt : ViewTransform Q) : Prop :=
  between MIN_SCALE MAX_SCALE (scale vt).

(** A processed image has a positive intrinsic size. *)
Definition validImage (img : ProcessedImage) : Prop :=
  forall p, processedImage img = Some p -> 0 < imgWidth p /\ 0 < imgHeight p.


(** The object with its flip flag erased. *)
Definition eraseFlip (img : ProcessedImage) : ProcessedImage := withFlipped img None.

(** The fields other than [x] and [y] agree. *)
Definition sameExceptPosition (a b : ProcessedImage) : Prop :=
  withPosition a 0 0 = withPosition b 0 0.

(** ** Sample scene *)

Local Open Scope string_scope.

(** A 100 x 100 sprite. *)
Definition sprite : HTMLImageElement :=
  {| src := "data:image/png;base64,sprite"; imgWidth := 100; imgHeight := 100 |}.

(** A finished object shown 200 x 200 at the origin; its content occupies
    the source pixels [25..75] in both directions, that is [50..150] on
    display. *)
Definition finished : ProcessedImage :=
  {| id := 0; sourceFile := None; sourceText := Some "banana";
     processedImage := Some sprite;
     originalImageUrl := Some "data:image/png;base64,original";
     showOriginal := Some false;
     x := 0; y := 0; width := 200; height := 200;
     isGenerating := false;
     contentBounds := {| bx := 25; by_ := 25; bwidth := 50; bheight := 50 |};
     sourcePreviewUrl := None;
     flippedHorizontally := Some false; isVariation := Some false;
     remixSuggestions := Some ["Make it blue"]; generatingPrompt := None |}.

(** A placeholder still generating, as [handleTextSubmit] creates it. *)
Definition pending : ProcessedImage :=
  {| id := 1; sourceFile := None; sourceText := Some "banana";
     processedImage := None;
     originalImageUrl := None;
     showOriginal := None;
     x := 0; y := 0; width := 250; height := 250;
     isGenerating := true;
     contentBounds := {| bx := 0; by_ := 0; bwidth := 250; bheight := 250 |};
     sourcePreviewUrl := None;
     flippedHorizontally := Some false; isVariation := Some false;
     remixSuggestions := None; generatingPrompt := None |}.

(** The initial view: [{ scale: 1, offsetX: 0, offsetY: 0 }]. *)
Definition initialView : ViewTransform Q :=
  {| scale := 1; offsetX := 0; offsetY := 0 |}.

(** An idle controller over the given objects, the first one selected. *)
Definition idle (objects : list ProcessedImage) : State :=
  {| images := objects;
     selectedImageId := match objects with o :: _ => Some (id o) | [] => None end;
     hoveredImageId := None; draggingImage := None;
     isPanning := false; panStart := {| px := 0; py := 0 |};
     viewTransform := initialView; pinchState := None;
     nextId := 2 |}.

(** The canvas fills the window. *)
Definition windowRect : DOMRect := {| left := 0; top := 0 |}.

(** A stand-in for [Math.hypot] that agrees with it when one of the two
    differences is zero. *)
Definition axisHypot (dx dy : Q) : Q := Qabs dx + Qabs dy.

(** One wheel notch up with the pointer at [(cx, cy)]. *)
Definition notchUp (cx cy : Q) : CanvasEvent :=
  Wheel {| wheelClientX := cx; wheelClientY := cy; deltaY := -100 |}.

(** Over the middle of [finished]: one notch up, a two-finger pinch
    opening from 10 to 100 client pixels, and a two-finger pinch closing
    from 100 to 1 client pixels. *)
Definition scalingGesture : list CanvasEvent :=
  [ notchUp 100 100;
    TouchStart [ {| clientX := 95; clientY := 100 |}; {| clientX := 105; clientY := 100 |} ];
    TouchMove [ {| clientX := 50; clientY := 100 |}; {| clientX := 150; clientY := 100 |} ];
    TouchEnd [];
    TouchStart [ {| clientX := 50; clientY := 100 |}; {| clientX := 150; clientY := 100 |} ];
    TouchMove [ {| clientX := 99; clientY := 100 |}; {| clientX := 100; clientY := 100 |} ];
    TouchEnd [] ].

Local Close Scope string_scope.

(** ** Creating objects *)

(** [const PLACEHOLDER_WIDTH = 250]. *)
Definition PLACEHOLDER_WIDTH : Q := 250.

(** What the creation handlers read of the page: the size of the canvas
    element ([None] when [canvasRef.current] is null) and of the window. *)
Record Viewport := {
  canvasSize : option (Q * Q);
  innerWidth : Q;
  innerHeight : Q
}.

(** [canvas ? canvas.width / 2 : window.innerWidth / 2], and the same for
    the height. *)
Definition viewCenter (vp : Viewport) : Point Q :=
  match canvasSize vp with
  | Some (w, h) => {| px := w / 2; py := h / 2 |}
  | None => {| px := innerWidth vp / 2; py := innerHeight vp / 2 |}
  end.

(** The object [handleTextSubmit] creates. *)
Definition textPlaceholder (k : nat) (trimmedInput : string) (dropWorld : Point Q)
    : ProcessedImage :=
  {| id := k; sourceFile := None; sourceText := Some trimmedInput;
     processedImage := None; originalImageUrl := None; showOriginal := None;
     x := px dropWorld - PLACEHOLDER_WIDTH / 2;
     y := py dropWorld - PLACEHOLDER_WIDTH / 2;
     width := PLACEHOLDER_WIDTH; height := PLACEHOLDER_WIDTH;
     isGenerating := true;
     contentBounds :=
       {| bx := 0; by_ := 0; bwidth := PLACEHOLDER_WIDTH; bheight := PLACEHOLDER_WIDTH |};
     sourcePreviewUrl := None;
     flippedHorizontally := Some false; isVariation := Some false;
     remixSuggestions := None; generatingPrompt := None |}.

(** The object [addImageToCanvas] creates. *)
Definition imagePlaceholder (k : nat) (file : File) (previewUrl : string)
    (dropWorld : Point Q) : ProcessedImage :=
  {| id := k; sourceFile := Some file; sourceText := None;
     processedImage := None; originalImageUrl := None; showOriginal := None;
     x := px dropWorld - PLACEHOLDER_WIDTH / 2;
     y := py dropWorld - 100;
     width := PLACEHOLDER_WIDTH; height := 200;
     isGenerating := true;
     contentBounds := {| bx := 0; by_ := 0; bwidth := PLACEHOLDER_WIDTH; bheight := 200 |};
     sourcePreviewUrl := Some previewUrl;
     flippedHorizontally := Some false; isVariation := Some false;
     remixSuggestions := None; generatingPrompt := None |}.

(** The object [handleRemixSubmit] creates from [imageToRemix]. *)
Definition remixPlaceholder (k : nat) (file : File) (prompt : string)
    (imageToRemix : ProcessedImage) : ProcessedImage :=
  {| id := k; sourceFile := Some file; sourceText := None;
     processedImage := processedImage imageToRemix;
     originalImageUrl := None; showOriginal := None;
     x := x imageToRemix + 40; y := y imageToRemix + 20;
     width := width imageToRemix; height := height imageToRemix;
     isGenerating := true;
     contentBounds :=
       {| bx := 0; by_ := 0; bwidth := width imageToRemix; bheight := height imageToRemix |};
     sourcePreviewUrl := None;
     flippedHorizontally := flippedHorizontally imageToRemix; isVariation := Some true;
     remixSuggestions := None; generatingPrompt := Some prompt |}.

(** [addImageToCanvas(file, customPosition)]; [previewUrl] is the URL
    [URL.createObjectURL(file)] hands out. The request it starts settles
    later through [generateFromImage]. *)
Definition addImageToCanvas (vp : Viewport) (previewUrl : string) (file : File)
    (customPosition : option (Point Q)) (st : State) : State :=
  let k := nextId st in
  let dropScreen :=
    match customPosition with
    | Some p => p
    | None => viewCenter vp
    end in
  let dropWorld := screenToWorld exact (viewTransform st) dropScreen in
  setImages (fun prev => prev ++ [imagePlaceholder k file previewUrl dropWorld])
    (setNextId (S k) st).

(** A file as the browser hands it over: the handle and its MIME type. *)
Record Upload := {
  upload : File;
  uploadType : string
}.

(** An entry of [clipboardData.items]: its type and what [getAsFile] gives. *)
Record ClipboardItem := {
  itemType : string;
  getAsFile : option File
}.

(** [type.startsWith('image/')]. *)
Definition isImageType (type : string) : bool := String.prefix "image/" type.

(** The loop of [handlePaste]: the file to add, if any. *)
Fixpoint pastedImage (items : list ClipboardItem) : option File :=
  match items with
  | [] => None
  | item :: rest =>
      if isImageType (itemType item) then
        match getAsFile item with
        | Some file => Some file
        | None => pastedImage rest
        end
      else pastedImage rest
  end.

Section Creation.
(** [String.prototype.trim] and [URL.createObjectURL]. *)
Variable trim : string -> string.
Variable createObjectURL : File -> string.

(** [handleTextSubmit], for the current content [textInput] of the prompt
    field. The request it starts settles through [generateFromText]. *)
Definition handleTextSubmit (vp : Viewport) (textInput : string) (st : State) : State :=
  let trimmedInput := trim textInput in
  if String.eqb trimmedInput "" then st
  else
    let k := nextId st in
    let dropWorld := screenToWorld exact (viewTransform st) (viewCenter vp) in
    setImages (fun prev => prev ++ [textPlaceholder k trimmedInput dropWorld])
      (setNextId (S k) st).

(** [handleDrop]. *)
Definition handleDrop (rect : option DOMRect) (vp : Viewport) (files : list Upload)
    (cx cy : Q) (st : State) : State :=
  match files with
  | file :: _ =>
      if isImageType (uploadType file) then
        let dropX := cx - match rect with Some r => left r | None => 0 end in
        let dropY := cy - match rect with Some r => top r | None => 0 end in
        addImageToCanvas vp (createObjectURL (upload file)) (upload file)
          (Some {| px := dropX; py := dropY |}) st
      else st
  | [] => st
  end.

(** [handleFileUpload]. *)
Definition handleFileUpload (vp : Viewport) (files : list Upload) (st : State) : State :=
  match files with
  | file :: _ =>
      if isImageType (uploadType file) then
        addImageToCanvas vp (createObjectURL (upload file)) (upload file) None st
      else st
  | [] => st
  end.

(** [handlePaste]; [items] is [None] when the event carries no clipboard data. *)
Definition handlePaste (vp : Viewport) (items : option (list ClipboardItem)) (st : State)
    : State :=
  match items with
  | None => st
  | Some l =>
      match pastedImage l with
      | Some file => addImageToCanvas vp (createObjectURL file) file None st
      | None => st
      end
  end.

(** [handleRemixSubmit(prompt)]; [remixFile] is what [imageElementToFile]
    resolves with, [None] when it throws. The request it starts settles
    through [generateFromImage]. *)
Definition handleRemixSubmit (remixFile : option File) (prompt : string) (st : State)
    : State :=
  if isActionDisabled st || negb (isSome (selectedImage st)) then st
  else
    match selectedImageId st with
    | Some sel =>
        match findById sel (images st) with
        | Some imageToRemix =>
            match processedImage imageToRemix with
            | Some _ =>
                let newId := nextId st in
                match remixFile with
                | Some file =>
                    setSelectedImageId (Some newId)
                      (setImages
                         (fun prev => prev ++ [remixPlaceholder newId file prompt imageToRemix])
                         (setNextId (S newId) st))
                | None => setNextId (S newId) st
                end
            | None => st
            end
        | None => st
        end
    | None => st
    end.

(** [handleRemixKeyDown], for the current content [remixInput] of the
    remix field. *)
Definition handleRemixKeyDown (remixFile : option File) (key remixInput : string)
    (st : State) : State :=
  if String.eqb key "Enter" then
    let trimmedInput := trim remixInput in
    if String.eqb trimmedInput "" then st
    else handleRemixSubmit remixFile trimmedInput st
  else st.
End Creation.

(** The click on the suggestion button:
    [selectedImage.remixSuggestions?.[suggestionIndex]], submitted when it
    is a non-empty string. *)
Definition clickSuggestion (remixFile : option File) (suggestionIndex : nat) (st : State)
    : State :=
  match selectedImage st with
  | Some sel =>
      match remixSuggestions sel with
      | Some l =>
          match nth_error l suggestionIndex with
          | Some suggestion =>
              if String.eqb suggestion "" then st
              else handleRemixSubmit remixFile suggestion st
          | None => st
          end
      | None => st
      end
  | None => st
  end.

(** The timer of the suggestion carousel:
    [(prev + 1) % (selectedImage.remixSuggestions?.length || 1)]. *)
Definition nextSuggestionIndex (prev : nat) (suggestions : option (list string)) : nat :=
  let len := match suggestions with Some l => List.length l | None => 0%nat end in
  Nat.modulo (prev + 1)%nat (if Nat.eqb len 0 then 1%nat else len).

(** ** A session *)

(** [useState] and [useRef] initial values. *)
Definition initialState : State :=
  {| images := []; selectedImageId := None; hoveredImageId := None;
     draggingImage := None; isPanning := false; panStart := {| px := 0; py := 0 |};
     viewTransform := {| scale := 1; offsetX := 0; offsetY := 0 |};
     pinchState := None; nextId := 0 |}.

(** What happens to the scene: canvas events, keys, the buttons of the
    action bar, the creation paths past their guards, settled generations
    and the reset. *)
Inductive Action :=
| OnCanvas (rect : option DOMRect) (ev : CanvasEvent)
| OnKeyDown (textFieldFocused : bool) (key : string)
| ClickRegenerate
| ClickFlip
| ClickDuplicate
| ClickDelete
| SubmitText (vp : Viewport) (textInput : string)
| AddImage (vp : Viewport) (previewUrl : string) (file : File)
           (customPosition : option (Point Q))
| SubmitRemix (remixFile : option File) (prompt : string)
| ImageSettled (k : nat) (g : Generation)
| TextSettled (k : nat) (g : Generation)
| ResetCanvas.

Section Session.
Variable hypot : Q -> Q -> Q.
Variable trim : string -> string.

Definition step (st : State) (a : Action) : State :=
  match a with
  | OnCanvas rect ev => dispatch hypot rect st ev
  | OnKeyDown focused key => handleKeyDown focused key st
  | ClickRegenerate => handleRegenerateSelected st
  | ClickFlip => handleFlipSelected st
  | ClickDuplicate => handleDuplicateSelected st
  | ClickDelete => handleDeleteSelected st
  | SubmitText vp textInput => handleTextSubmit trim vp textInput st
  | AddImage vp previewUrl file customPosition =>
      addImageToCanvas vp previewUrl file customPosition st
  | SubmitRemix remixFile prompt => handleRemixSubmit remixFile prompt st
  | ImageSettled k g => generateFromImage k g st
  | TextSettled k g => generateFromText k g st
  | ResetCanvas => handleResetCanvas st
  end.

(** The state after the actions, oldest first, from the initial state. *)
Definition session (actions : list Action) : State :=
  fold_left step actions initialState.

(** A two-finger gesture on the canvas starts from two distinct points. *)
Definition properAction (a : Action) : Prop :=
  match a with
  | OnCanvas _ ev => distinctTouches hypot ev
  | _ => True
  end.
End Session.

(** Object ids are pairwise distinct and below the next id to hand out. *)
Definition freshIds (st : State) : Prop :=
  NoDup (map id (images st)) /\
  Forall (fun img => (id img < nextId st)%nat) (images st).

(** An edit of one object that keeps its id and keeps a clamped width
    clamped. *)
Definition gentle (f : ProcessedImage -> ProcessedImage) : Prop :=
  forall img, id (f img) = id img /\ (widthClamped img -> widthClamped (f img)).

(** The ways one action changes the array of objects and the id counter. *)
Inductive Evolves (st st' : State) : Prop :=
| EvSame :
    images st' = images st -> nextId st' = nextId st -> Evolves st st'
| EvEdit (g : ProcessedImage -> ProcessedImage) :
    gentle g -> images st' = map g (images st) -> nextId st' = nextId st ->
    Evolves st st'
| EvRemove (k : nat) :
    images st' = removeId k (images st) -> nextId st' = nextId st -> Evolves st st'
| EvRaise (target : ProcessedImage) :
    In target (images st) ->
    images st' = removeId (id target) (images st) ++ [target] ->
    nextId st' = nextId st -> Evolves st st'
| EvAdd (new : ProcessedImage) :
    id new = nextId st ->
    (Forall widthClamped (images st) -> widthClamped new) ->
    images st' = images st ++ [new] -> nextId st' = S (nextId st) -> Evolves st st'
| EvSkip :
    images st' = images st -> nextId st' = S (nextId st) -> Evolves st st'
| EvClear :
    images st' = [] -> nextId st' = nextId st -> Evolves st st'.

(** ** The text loader's line breaking *)

Section Wrap.
(** [ctx.measureText(line).width] and [maxWidth]. *)
Variable measureText : string -> Q.
Variable maxWidth : Q.

(** The [for] loop over [words]; [first] says that [n] is 0. *)
Fixpoint wrapLoop (first : bool) (words : list string) (line : string)
    (lines : list string) : string * list string :=
  match words with
  | [] => (line, lines)
  | word :: rest =>
      let testLine := (line ++ word ++ " ")%string in
      let testWidth := measureText testLine in
      if Qltb maxWidth testWidth && negb first then
        wrapLoop false rest (word ++ " ")%string (lines ++ [line])
      else wrapLoop false rest testLine lines
  end.

(** A line fits, or it holds a single word of [all]. *)
Definition acceptable (all : list string) (line : string) : Prop :=
  measureText line <= maxWidth \/
  exists word, In word all /\ line = (word ++ " ")%string.

(** The lines the text loader draws for [text], before each is trimmed. *)
Definition wrapText (text : string) : list string :=
  let words := Text.splitOn " "%char text in
  let (line, lines) := wrapLoop true words EmptyString [] in
  lines ++ [line].
End Wrap.

(** ** Sample session *)

(** A window of 800 x 600 whose canvas fills it. *)
Definition window : Viewport :=
  {| canvasSize := Some (800, 600); innerWidth := 800; innerHeight := 600 |}.

(** A prompt is submitted, its generation succeeds, the object is zoomed
    by one wheel notch and pinched, and a second prompt's generation fails. *)
Definition sampleSession : list Action :=
  [ SubmitText window "banana"%string;
    TextSettled 0 (Succeeded "data:image/png;base64,banana"%string sprite
                     {| bx := 25; by_ := 25; bwidth := 50; bheight := 50 |}
                     ["Make it blue"%string]);
    OnCanvas (Some windowRect) (notchUp 400 300);
    OnCanvas (Some windowRect)
      (TouchStart [ {| clientX := 350; clientY := 300 |};
                    {| clientX := 450; clientY := 300 |} ]);
    OnCanvas (Some windowRect)
      (TouchMove [ {| clientX := 300; clientY := 300 |};
                   {| clientX := 500; clientY := 300 |} ]);
    OnCanvas (Some windowRect) (TouchEnd []);
    SubmitText window "apple"%string;
    TextSettled 1 Failed ].

End Scene.

(* ================================================================== *)
(** * Remix suggestions *)
(* ================================================================== *)

Module Gemini.

Local Open Scope string_scope.

#[local] Set Warnings "-register-all".

(** A parsed JSON value. *)
Inductive Json :=
| JNull
| JBool (b : bool)
| JNumber (n : Z)
| JString (s : string)
| JArray (items : list Json)
| JObject (fields : list (string * Json)).

(** An [async] function settles by returning or by throwing. *)
Inductive Settled (A : Type) : Type :=
| Returns (a : A)
| Throws (message : string).
Arguments Returns {A} a.
Arguments Throws {A} message.

(** Everything outside the function: the environment variable, the file
    reader, the remote model and the JavaScript built-ins. *)
Record World := {
  API_KEY : option string;
  (** [fileToBase64]: [None] when [reader.onerror] fires. *)
  fileToBase64 : string -> option string;
  (** [ai.models.generateContent]: [None] when the request rejects;
      otherwise [response.text], which may be [undefined]. *)
  generateContent : string -> string -> option (option string);
  trim : string -> string;
  (** [JSON.parse]: [None] when it throws. *)
  JSONparse : string -> option Json
}.

(** [!process.env.API_KEY]. *)
Definition missing (k : option string) : bool :=
  match k with
  | Some EmptyString => true
  | Some _ => false
  | None => true
  end.

(** [result.prompts]: [None] when the access throws (on [null]), otherwise
    the property value, [undefined] being [Some None]. *)
Definition getPrompts (result : Json) : option (option Json) :=
  match result with
  | JNull => None
  | JObject fields =>
      Some (option_map snd (find (fun kv => String.eqb (fst kv) "prompts") fields))
  | _ => Some None
  end.

(** The body of the [try] block after [generateContent] has answered. *)
Definition readSuggestions (w : World) (responseText : option string) : list Json :=
  match responseText with
  | None => []
  | Some text =>
      let jsonText := trim w text in
      match JSONparse w jsonText with
      | None => []
      | Some result =>
          match getPrompts result with
          | None => []
          | Some (Some (JArray prompts)) =>
              if (0 <? List.length prompts)%nat then firstn 5 prompts else []
          | Some _ => []
          end
      end
  end.

(** [getRemixSuggestions(imageFile, prompt)]. *)
Definition getRemixSuggestions (w : World) (imageFile prompt : string)
    : Settled (list Json) :=
  if missing (API_KEY w) then
    Throws "API_KEY environment variable not set. Please ensure it's configured."
  else
    match fileToBase64 w imageFile with
    | None => Throws "FileReader error"
    | Some base64ImageData =>
        match generateContent w prompt base64ImageData with
        | None => Returns []
        | Some responseText => Returns (readSuggestions w responseText)
        end
    end.

(** The entries are JSON strings. *)
Definition allStrings (l : list Json) : Prop :=
  Forall (fun j => exists s, j = JString s) l.

(** ** Image generation *)

(** One part of a candidate's content: [inlineData] as its MIME type and
    data, and [text]. *)
Record Part := {
  inlineData : option (string * string);
  text : option string
}.

(** [response.candidates]; each candidate is its [content.parts], [None]
    when the content is missing. *)
Definition Candidates := option (list (option (list Part))).

(** [`data:${mimeType};base64,${data}`]. *)
Definition dataUrl (mimeType data : string) : string :=
  "data:" ++ mimeType ++ ";base64," ++ data.

(** The part carries image data: [part.inlineData && part.inlineData.data]. *)
Definition hasImage (p : Part) : bool :=
  match inlineData p with
  | Some (_, EmptyString) => false
  | Some _ => true
  | None => false
  end.

(** The part is read for its text: no image data, and a non-empty [text]. *)
Definition hasText (p : Part) : bool :=
  negb (hasImage p) &&
  match text p with
  | Some EmptyString => false
  | Some _ => true
  | None => false
  end.

(** The loop [for (const part of ...parts)] over [imageUrl] and [text]. *)
Fixpoint readParts (parts : list Part) (imageUrl txt : option string)
    : option string * option string :=
  match parts with
  | [] => (imageUrl, txt)
  | part :: rest =>
      match inlineData part with
      | Some (mimeType, String c data) =>
          readParts rest (Some (dataUrl mimeType (String c data))) txt
      | _ =>
          match text part with
          | Some (String c t) => readParts rest imageUrl (Some (String c t))
          | _ => readParts rest imageUrl txt
          end
      end
  end.

(** The URL built from a part that carries image data. *)
Definition imageUrlOf (p : Part) : string :=
  match inlineData p with
  | Some (mimeType, data) => dataUrl mimeType data
  | None => ""
  end.

(** The last part of the list that satisfies [f]. *)
Definition lastPart (f : Part -> bool) (parts : list Part) : option Part :=
  find f (rev parts).

(** What follows the request in [generateImageWithPrompt] and in
    [generateImageFromText]. *)
Definition readImageResponse (candidates : Candidates)
    : Settled (string * option string) :=
  let noImage (txt : option string) :=
    Throws (match txt with
            | Some t => t
            | None => "No image was generated in the API response."
            end) in
  match candidates with
  | Some (Some parts :: _) =>
      match readParts parts None None with
      | (Some imageUrl, txt) => Returns (imageUrl, txt)
      | (None, txt) => noImage txt
      end
  | Some (None :: _) => Throws "TypeError"
  | Some [] => noImage None
  | None => noImage None
  end.

(** The environment of the two image-generating calls; [request] is
    [None] when [ai.models.generateContent] rejects. *)
Record ImageWorld := {
  imageApiKey : option string;
  readFile : string -> option string;
  request : option Candidates
}.

(** [generateImageFromText(prompt)]. *)
Definition generateImageFromText (w : ImageWorld) (prompt : string)
    : Settled (string * option string) :=
  if missing (imageApiKey w) then
    Throws "API_KEY environment variable not set. Please ensure it's configured."
  else
    match request w with
    | None => Throws "request rejected"
    | Some candidates => readImageResponse candidates
    end.

(** [generateImageWithPrompt(imageFile, prompt)]. *)
Definition generateImageWithPrompt (w : ImageWorld) (imageFile prompt : string)
    : Settled (string * option string) :=
  if missing (imageApiKey w) then
    Throws "API_KEY environment variable not set. Please ensure it's configured."
  else
    match readFile w imageFile with
    | None => Throws "FileReader error"
    | Some _ =>
        match request w with
        | None => Throws "request rejected"
        | Some candidates => readImageResponse candidates
        end
    end.

(** What [fileToBase64] resolves with for the reader's [result]:
    [result.split(',')[1]], [None] for [undefined]. *)
Definition base64Of (result : string) : option string :=
  nth_error (Text.splitOn ","%char result) 1.

(** ** Sample worlds *)

(** A world where the file is read, the model answers [reply] and every
    text parses to [parsed]; [key] is the environment variable. *)
Definition world (key : option string) (reply : option (option string))
    (parsed : option Json) : World :=
  {| API_KEY := key;
     fileToBase64 := fun _ => Some "iVBORw0KGgo=";
     generateContent := fun _ _ => reply;
     trim := fun s => s;
     JSONparse := fun _ => parsed |}.

(** A response with seven prompts. *)
Definition sevenPrompts : Json :=
  JObject [("prompts",
            JArray [JString "Make it blue"; JString "Add a hat"; JString "Make it bigger";
                    JString "Add wings"; JString "Make it golden"; JString "Add a flag";
                    JString "Make it older"])].

End Gemini.

(* ================================================================== *)
(** * Facts about the transparency processor *)
(* ================================================================== *)

Module TransparencyFacts.

Import Transparency.
Local Open Scope Z_scope.

(** ** Loop counters *)

Lemma In_upto (n x : Z) : In x (upto n) <-> 0 <= x < n.
Proof.
  unfold upto. rewrite in_map_iff. split.
  - intros [k [<- Hk]]. apply in_seq in Hk. lia.
  - intros Hx. exists (Z.to_nat x). split; [lia|]. apply in_seq. lia.
Qed.

(** ** First pass *)

Section KeyOut.
Variables t bgR bgG bgB : Z.

(** Entry [4k + 3] after the pass, for a pixel [k] of the buffer. *)
Lemma keyOut_alpha (k : nat) : forall d : list Z,
  (4 * k + 3 < List.length d)%nat ->
  nth (4 * k + 3) (keyOut t bgR bgG bgB d) 0 =
  if (nth (4 * k) d 0 - bgR) ^ 2 + (nth (4 * k + 1) d 0 - bgG) ^ 2
     + (nth (4 * k + 2) d 0 - bgB) ^ 2 <? t
  then 0 else nth (4 * k + 3) d 0.
Proof.
  induction k as [|k IH]; intros d Hlen.
  - destruct d as [|r [|g [|b [|a rest]]]]; cbn in Hlen; try lia. reflexivity.
  - destruct d as [|r [|g [|b [|a rest]]]]; cbn in Hlen; try lia.
    replace (4 * S k + 3)%nat with (S (S (S (S (4 * k + 3))))) by lia.
    replace (4 * S k + 2)%nat with (S (S (S (S (4 * k + 2))))) by lia.
    replace (4 * S k + 1)%nat with (S (S (S (S (4 * k + 1))))) by lia.
    replace (4 * S k)%nat with (S (S (S (S (4 * k))))) by lia.
    cbn [keyOut nth]. apply IH. lia.
Qed.
End KeyOut.

(** ** Second pass *)

Section Scan.
Variables (w : Z) (d : list Z).

#[local] Abbreviation visible := (visible w d).
#[local] Abbreviation visitPoint := (visitPoint w d).
#[local] Abbreviation points := (points w).

Lemma In_points (h x y : Z) : In (x, y) (points h) <-> (0 <= x < w /\ 0 <= y < h).
Proof.
  unfold points. rewrite in_flat_map. split.
  - intros [y' [Hy' Hin]]. apply in_map_iff in Hin. destruct Hin as [x' [Heq Hx']].
    inversion Heq; subst. apply In_upto in Hy'. apply In_upto in Hx'. lia.
  - intros [Hx Hy]. exists y. split; [apply In_upto; lia|].
    apply in_map_iff. exists x. split; [reflexivity|apply In_upto; lia].
Qed.

Lemma scanRow_points (y : Z) (xs : list Z) (e : Extremes) :
  fold_left (visit w d y) xs e = fold_left visitPoint (map (fun x => (x, y)) xs) e.
Proof. revert e. induction xs as [|x xs IH]; intros e; cbn; [reflexivity|apply IH]. Qed.

Lemma scan_points (h : Z) (e : Extremes) :
  scan w h d e = fold_left visitPoint (points h) e.
Proof.
  unfold scan, points. revert e.
  induction (upto h) as [|y ys IH]; intros e; cbn; [reflexivity|].
  rewrite fold_left_app, IH. f_equal. unfold scanRow. apply scanRow_points.
Qed.

Ltac visit_cases :=
  unfold visitPoint, visit; cbn [fst snd];
  repeat match goal with
  | |- context [?a >? ?b] => destruct (Z.gtb_spec a b)
  | |- context [?a <? ?b] => destruct (Z.ltb_spec a b)
  end; cbn [minX minY maxX maxY].

Lemma visitPoint_grows (e : Extremes) (p : Z * Z) :
  minX (visitPoint e p) <= minX e /\ minY (visitPoint e p) <= minY e /\
  maxX e <= maxX (visitPoint e p) /\ maxY e <= maxY (visitPoint e p).
Proof. visit_cases; lia. Qed.

Lemma visitPoint_covers (e : Extremes) (x y : Z) :
  visible x y ->
  minX (visitPoint e (x, y)) <= x <= maxX (visitPoint e (x, y)) /\
  minY (visitPoint e (x, y)) <= y <= maxY (visitPoint e (x, y)).
Proof. unfold visible. visit_cases; lia. Qed.

Lemma visitPoint_hidden (e : Extremes) (x y : Z) :
  ~ visible x y -> visitPoint e (x, y) = e.
Proof.
  unfold visible, visitPoint, visit; cbn [fst snd].
  destruct (Z.gtb_spec (alphaAt w d x y) 0); [lia|reflexivity].
Qed.

(** Each extreme after one step is the old one or the visited, visible pixel. *)
Lemma visitPoint_touches (e : Extremes) (x y : Z) :
  (minX (visitPoint e (x, y)) = minX e \/ (visible x y /\ minX (visitPoint e (x, y)) = x)) /\
  (maxX (visitPoint e (x, y)) = maxX e \/ (visible x y /\ maxX (visitPoint e (x, y)) = x)) /\
  (minY (visitPoint e (x, y)) = minY e \/ (visible x y /\ minY (visitPoint e (x, y)) = y)) /\
  (maxY (visitPoint e (x, y)) = maxY e \/ (visible x y /\ maxY (visitPoint e (x, y)) = y)).
Proof. unfold visible. visit_cases; repeat split; (left; reflexivity) || (right; lia). Qed.

Lemma track_grows (pts : list (Z * Z)) : forall e,
  minX (fold_left visitPoint pts e) <= minX e /\
  minY (fold_left visitPoint pts e) <= minY e /\
  maxX e <= maxX (fold_left visitPoint pts e) /\
  maxY e <= maxY (fold_left visitPoint pts e).
Proof.
  induction pts as [|p pts IH]; intros e; cbn [fold_left]; [lia|].
  specialize (IH (visitPoint e p)). pose proof (visitPoint_grows e p). lia.
Qed.

Lemma track_covers (pts : list (Z * Z)) : forall e x y,
  In (x, y) pts -> visible x y ->
  minX (fold_left visitPoint pts e) <= x <= maxX (fold_left visitPoint pts e) /\
  minY (fold_left visitPoint pts e) <= y <= maxY (fold_left visitPoint pts e).
Proof.
  induction pts as [|p pts IH]; intros e x y Hin Hv; [contradiction|].
  cbn [fold_left]. destruct Hin as [-> | Hin].
  - pose proof (visitPoint_covers e x y Hv).
    pose proof (track_grows pts (visitPoint e (x, y))). lia.
  - apply IH; assumption.
Qed.

Lemma track_hidden (pts : list (Z * Z)) : forall e,
  (forall x y, In (x, y) pts -> ~ visible x y) ->
  fold_left visitPoint pts e = e.
Proof.
  induction pts as [|[x y] pts IH]; intros e Hnone; cbn [fold_left]; [reflexivity|].
  rewrite visitPoint_hidden by (apply Hnone; left; reflexivity).
  apply IH. intros x' y' Hin. apply Hnone. right; assumption.
Qed.

(** Each extreme at the end is the initial one or sits on a visible pixel. *)
Lemma track_touches (pts : list (Z * Z)) : forall e,
  let e' := fold_left visitPoint pts e in
  (minX e' = minX e \/ exists y, In (minX e', y) pts /\ visible (minX e') y) /\
  (maxX e' = maxX e \/ exists y, In (maxX e', y) pts /\ visible (maxX e') y) /\
  (minY e' = minY e \/ exists x, In (x, minY e') pts /\ visible x (minY e')) /\
  (maxY e' = maxY e \/ exists x, In (x, maxY e') pts /\ visible x (maxY e')).
Proof.
  induction pts as [|[x y] pts IH]; intros e; cbn zeta.
  - cbn. repeat split; left; reflexivity.
  - cbn [fold_left]. specialize (IH (visitPoint e (x, y))). cbn zeta in IH.
    destruct IH as (I1 & I2 & I3 & I4).
    destruct (visitPoint_touches e x y) as (T1 & T2 & T3 & T4).
    repeat split.
    + destruct I1 as [I1 | [y' [Hin Hv]]].
      * destruct T1 as [T1 | [Hv T1]]; [left; congruence|].
        right. exists y. rewrite I1, T1. split; [left; reflexivity|assumption].
      * right. exists y'. split; [right; assumption|assumption].
    + destruct I2 as [I2 | [y' [Hin Hv]]].
      * destruct T2 as [T2 | [Hv T2]]; [left; congruence|].
        right. exists y. rewrite I2, T2. split; [left; reflexivity|assumption].
      * right. exists y'. split; [right; assumption|assumption].
    + destruct I3 as [I3 | [x' [Hin Hv]]].
      * destruct T3 as [T3 | [Hv T3]]; [left; congruence|].
        right. exists x. rewrite I3, T3. split; [left; reflexivity|assumption].
      * right. exists x'. split; [right; assumption|assumption].
    + destruct I4 as [I4 | [x' [Hin Hv]]].
      * destruct T4 as [T4 | [Hv T4]]; [left; congruence|].
        right. exists x. rewrite I4, T4. split; [left; reflexivity|assumption].
      * right. exists x'. split; [right; assumption|assumption].
Qed.
End Scan.

(** ** The bounding box of the processed image *)

Lemma channel_origin (img : ImageData) (c : Z) :
  channel img c 0 0 = at_ (data img) c.
Proof. unfold channel. f_equal; lia. Qed.

(** The alpha channel after processing: zero strictly below the squared
    threshold, untouched from it on. *)
Lemma alpha_processed (threshold : Z) (img : ImageData) (x y : Z) :
  wellFormed img -> inside img x y ->
  alpha (transparentImage (processPixels threshold img)) x y =
  if distanceSquared img x y <? threshold * threshold then 0 else alpha img x y.
Proof.
  intros (Hw & Hh & Hlen) (Hx & Hy).
  unfold distanceSquared. rewrite !channel_origin.
  unfold alpha, alphaAt, channel, at_, processPixels; cbn.
  set (k := Z.to_nat (y * width img + x)).
  assert (Hk : (y * width img + x) = Z.of_nat k) by (unfold k; nia).
  rewrite Hk.
  replace (Z.to_nat (Z.of_nat k * 4 + 3)) with (4 * k + 3)%nat by lia.
  replace (Z.to_nat (Z.of_nat k * 4 + 0)) with (4 * k)%nat by lia.
  replace (Z.to_nat (Z.of_nat k * 4 + 1)) with (4 * k + 1)%nat by lia.
  replace (Z.to_nat (Z.of_nat k * 4 + 2)) with (4 * k + 2)%nat by lia.
  apply keyOut_alpha. nia.
Qed.

(** With a visible pixel the box is the minimal one; without, the fallback. *)
Lemma contentBounds_spec (threshold : Z) (img : ImageData) :
  0 < width img -> 0 < height img ->
  let r := processPixels threshold img in
  (anyVisible (transparentImage r) -> minimalBounds (transparentImage r) (contentBounds r)) /\
  (~ anyVisible (transparentImage r) ->
   contentBounds r = fullExtent (width img) (height img)).
Proof.
  intros Hw Hh. cbn zeta. unfold processPixels. cbn [transparentImage contentBounds].
  set (d' := keyOut _ _ _ _ _).
  set (e0 := {| minX := width img; minY := height img; maxX := -1; maxY := -1 |}).
  rewrite scan_points. set (e := fold_left _ _ e0).
  unfold anyVisible, minimalBounds, encloses, inside, alpha.
  cbn [width height data]. split.
  - intros (x0 & y0 & Hin0 & Hv0).
    assert (Hcov : forall x y, (0 <= x < width img /\ 0 <= y < height img) ->
                     alphaAt (width img) d' x y > 0 ->
                     minX e <= x <= maxX e /\ minY e <= y <= maxY e).
    { intros x y Hin Hv. apply track_covers; [apply In_points; exact Hin|exact Hv]. }
    pose proof (Hcov x0 y0 Hin0 Hv0) as H0.
    assert (Hb : boundsOf (width img) (height img) e =
                 {| cbX := minX e; cbY := minY e;
                    cbWidth := maxX e - minX e + 1; cbHeight := maxY e - minY e + 1 |}).
    { unfold boundsOf.
      replace (maxX e >=? minX e) with true by (symmetry; apply Z.geb_le; lia).
      replace (maxY e >=? minY e) with true by (symmetry; apply Z.geb_le; lia).
      reflexivity. }
    rewrite Hb. split.
    + intros x y Hin Hv. specialize (Hcov x y Hin Hv).
      unfold covers; cbn. lia.
    + intros b' Hb'.
      destruct (track_touches (width img) d' (Transparency.points (width img) (height img)) e0)
        as (T1 & T2 & T3 & T4).
      fold e in T1, T2, T3, T4. cbn [minX minY maxX maxY e0] in T1, T2, T3, T4.
      unfold within, covers in *; cbn [cbX cbY cbWidth cbHeight].
      destruct T1 as [T1 | (y1 & I1 & V1)]; [lia|].
      destruct T2 as [T2 | (y2 & I2 & V2)]; [lia|].
      destruct T3 as [T3 | (x3 & I3 & V3)]; [lia|].
      destruct T4 as [T4 | (x4 & I4 & V4)]; [lia|].
      apply In_points in I1, I2, I3, I4.
      pose proof (Hb' _ _ I1 V1). pose proof (Hb' _ _ I2 V2).
      pose proof (Hb' _ _ I3 V3). pose proof (Hb' _ _ I4 V4). lia.
  - intros Hnone.
    assert (He : e = e0).
    { apply track_hidden. intros x y Hin Hv. apply Hnone.
      exists x, y. split; [apply In_points in Hin; exact Hin|exact Hv]. }
    rewrite He. unfold boundsOf, e0; cbn [minX minY maxX maxY].
    destruct (Z.geb_spec (-1) (width img)); [lia|reflexivity].
Qed.

(** A pixel left visible by a larger threshold is left visible by a smaller one. *)
Lemma visible_antitone (t1 t2 : Z) (img : ImageData) (x y : Z) :
  wellFormed img -> 0 <= t1 <= t2 -> inside img x y ->
  alpha (transparentImage (processPixels t2 img)) x y > 0 ->
  alpha (transparentImage (processPixels t1 img)) x y > 0.
Proof.
  intros Hwf Ht Hin. rewrite !alpha_processed by assumption.
  destruct (Z.ltb_spec (distanceSquared img x y) (t2 * t2)); [lia|].
  destruct (Z.ltb_spec (distanceSquared img x y) (t1 * t1)); [nia|]. trivial.
Qed.

(** The threshold is exclusive: at squared distance 361 the pixel is keyed
    out, at exactly 400 it is kept and alone makes the bounding box. *)
Example boundary_pixel_kept :
  processPixels COLOR_DISTANCE_THRESHOLD boundaryPixels =
  {| transparentImage :=
       {| width := 3; height := 1;
          data := [0; 0; 0; 0;  19; 0; 0; 0;  20; 0; 0; 255] |};
     contentBounds := {| cbX := 2; cbY := 0; cbWidth := 1; cbHeight := 1 |} |}.
Proof. reflexivity. Qed.

(** Without a readable pixel buffer the original image comes back with the
    full extent; without a 2d context, or without a decoded image, the
    promise rejects. *)
Example degraded_outcomes :
  processImageForTransparency
    {| has2dContext := true; pixelsReadable := false; dataUrlLoads := true |}
    (Some twoPixels)
  = Resolved {| transparentImage := twoPixels; contentBounds := fullExtent 2 1 |} /\
  processImageForTransparency
    {| has2dContext := false; pixelsReadable := true; dataUrlLoads := true |}
    (Some twoPixels) = Rejected /\
  processImageForTransparency cooperative None = Rejected.
Proof. repeat split. Qed.

(** ** C1 *)

(** C1. For a decoded image, in a browser where the canvas steps succeed,
    [processImageForTransparency] resolves; the background colour is the
    top-left pixel (the reference of [distanceSquared]); a pixel's alpha
    becomes 0 exactly when its squared RGB distance to that colour is
    strictly below [20^2] and is left as it was otherwise; the returned
    [contentBounds] is the minimal rectangle enclosing the pixels with
    non-zero alpha, in source-pixel coordinates, and is the full image
    extent when no such pixel remains. *)
Theorem C1_transparency_contract (env : Browser) (img : ImageData) :
  wellFormed img ->
  has2dContext env = true -> pixelsReadable env = true -> dataUrlLoads env = true ->
  exists r,
    processImageForTransparency env (Some img) = Resolved r /\
    width (transparentImage r) = width img /\
    height (transparentImage r) = height img /\
    (forall x y, inside img x y ->
       alpha (transparentImage r) x y =
       if distanceSquared img x y
          <? COLOR_DISTANCE_THRESHOLD * COLOR_DISTANCE_THRESHOLD
       then 0 else alpha img x y) /\
    (anyVisible (transparentImage r) ->
       minimalBounds (transparentImage r) (contentBounds r)) /\
    (~ anyVisible (transparentImage r) ->
       contentBounds r = fullExtent (width img) (height img)).
Proof.
  intros Hwf Hc Hr Hl.
  exists (processPixels COLOR_DISTANCE_THRESHOLD img).
  split.
  { unfold processImageForTransparency, processImageWith. rewrite Hc, Hr, Hl. reflexivity. }
  split; [reflexivity|]. split; [reflexivity|]. split.
  { intros x y Hin. apply alpha_processed; assumption. }
  destruct Hwf as (Hw & Hh & _).
  exact (contentBounds_spec COLOR_DISTANCE_THRESHOLD img Hw Hh).
Qed.

Lemma C1_transparency_contract_witness :
  exists r,
    processImageForTransparency cooperative (Some twoPixels) = Resolved r /\
    width (transparentImage r) = width twoPixels /\
    height (transparentImage r) = height twoPixels /\
    (forall x y, inside twoPixels x y ->
       alpha (transparentImage r) x y =
       if distanceSquared twoPixels x y
          <? COLOR_DISTANCE_THRESHOLD * COLOR_DISTANCE_THRESHOLD
       then 0 else alpha twoPixels x y) /\
    (anyVisible (transparentImage r) ->
       minimalBounds (transparentImage r) (contentBounds r)) /\
    (~ anyVisible (transparentImage r) ->
       contentBounds r = fullExtent (width twoPixels) (height twoPixels)).
Proof.
  apply (C1_transparency_contract cooperative twoPixels).
  - unfold wellFormed; cbn; lia.
  - reflexivity.
  - reflexivity.
  - reflexivity.
Defined.

(** ** C2 *)

(** C2, as stated, fails: on [threePixels] the box for threshold 20 does
    not contain the box for threshold 5 (it lost the near-black pixel). *)
Lemma C2_larger_threshold_shrinks_box :
  0 <= 5 <= 20 /\
  contentBounds (processPixels 5 threePixels) =
    {| cbX := 1; cbY := 0; cbWidth := 2; cbHeight := 1 |} /\
  contentBounds (processPixels 20 threePixels) =
    {| cbX := 2; cbY := 0; cbWidth := 1; cbHeight := 1 |} /\
  ~ within (contentBounds (processPixels 5 threePixels))
           (contentBounds (processPixels 20 threePixels)).
Proof.
  assert (E5 : contentBounds (processPixels 5 threePixels) =
               {| cbX := 1; cbY := 0; cbWidth := 2; cbHeight := 1 |}) by reflexivity.
  assert (E20 : contentBounds (processPixels 20 threePixels) =
                {| cbX := 2; cbY := 0; cbWidth := 1; cbHeight := 1 |}) by reflexivity.
  split; [lia|]. split; [exact E5|]. split; [exact E20|].
  rewrite E5, E20. unfold within; cbn [cbX cbY cbWidth cbHeight]. lia.
Qed.

(** C2, amended. For thresholds [0 <= t1 <= t2], the box computed with
    [t2] lies within the box computed with [t1] whenever some pixel stays
    non-transparent at [t2]; when none does, the box computed with [t2] is
    the full image extent. *)
Theorem C2_threshold_monotone (t1 t2 : Z) (img : ImageData) :
  wellFormed img -> 0 <= t1 <= t2 ->
  let r1 := processPixels t1 img in
  let r2 := processPixels t2 img in
  (anyVisible (transparentImage r2) -> within (contentBounds r2) (contentBounds r1)) /\
  (~ anyVisible (transparentImage r2) ->
   contentBounds r2 = fullExtent (width img) (height img)).
Proof.
  intros Hwf Ht. cbn zeta.
  destruct (Hwf) as (Hw & Hh & _).
  destruct (contentBounds_spec t1 img Hw Hh) as [S1 _].
  destruct (contentBounds_spec t2 img Hw Hh) as [S2 N2].
  cbn zeta in S1, S2, N2. split; [|exact N2].
  intros Hany. destruct (S2 Hany) as [_ Hmin]. apply Hmin.
  assert (Hany1 : anyVisible (transparentImage (processPixels t1 img))).
  { destruct Hany as (x & y & Hin & Hv). exists x, y. split; [exact Hin|].
    apply (visible_antitone t1 t2); assumption. }
  destruct (S1 Hany1) as [Henc _].
  intros x y Hin Hv. apply Henc; [exact Hin|].
  apply (visible_antitone t1 t2); assumption.
Qed.

Lemma C2_threshold_monotone_witness :
  let r1 := processPixels 5 threePixels in
  let r2 := processPixels 20 threePixels in
  (anyVisible (transparentImage r2) -> within (contentBounds r2) (contentBounds r1)) /\
  (~ anyVisible (transparentImage r2) ->
   contentBounds r2 = fullExtent (width threePixels) (height threePixels)).
Proof.
  apply (C2_threshold_monotone 5 20 threePixels).
  - unfold wellFormed; cbn; lia.
  - lia.
Defined.

End TransparencyFacts.

(* ================================================================== *)
(** * Facts about the coordinate conversions *)
(* ================================================================== *)

Module CoordinatesFacts.

Import Coordinates.
Local Open Scope Q_scope.

(** World to screen and back, in exact arithmetic, for a non-zero scale. *)
Lemma screenToWorld_worldToScreen (vt : ViewTransform Q) (p : Point Q) :
  ~ scale vt == 0 ->
  samePoint (screenToWorld exact vt (worldToScreen exact vt p)) p.
Proof.
  intros Hs. unfold samePoint, screenToWorld, worldToScreen; cbn.
  split; field; exact Hs.
Qed.

(** Screen to world and forth, in exact arithmetic, for a non-zero scale. *)
Lemma worldToScreen_screenToWorld (vt : ViewTransform Q) (s : Point Q) :
  ~ scale vt == 0 ->
  samePoint (worldToScreen exact vt (screenToWorld exact vt s)) s.
Proof.
  intros Hs. unfold samePoint, screenToWorld, worldToScreen; cbn.
  split; field; exact Hs.
Qed.

(** C3, as stated, fails on the program's numbers: in binary64, at scale 3
    with no pan, the point [(0.1, 0.1)] comes back from the round trip as
    [0.10000000000000002], which [==] tells apart from [0.1]. *)
Lemma C3_round_trip_rounds_in_binary64 :
  PrimFloat.leb 0x1.999999999999ap-3%float (scale zoomedIn64) = true /\
  PrimFloat.leb (scale zoomedIn64) 3%float = true /\
  px (screenToWorld binary64 zoomedIn64 (worldToScreen binary64 zoomedIn64 tenth64))
    = 0x1.999999999999bp-4%float /\
  PrimFloat.eqb
    (px (screenToWorld binary64 zoomedIn64 (worldToScreen binary64 zoomedIn64 tenth64)))
    (px tenth64) = false.
Proof. repeat split; vm_compute; reflexivity. Qed.

(** C3, amended. In exact arithmetic (numbers without rounding), for every
    view transform with scale in [[0.2, 3.0]] and any offsets,
    [screenToWorld] and [worldToScreen] are inverses of each other:
    [screenToWorld (worldToScreen p)] is [p], and
    [worldToScreen (screenToWorld s)] is [s]. *)
Theorem C3_conversions_inverse_exact (vt : ViewTransform Q) (p : Point Q) :
  0.2 <= scale vt <= 3.0 ->
  samePoint (screenToWorld exact vt (worldToScreen exact vt p)) p /\
  samePoint (worldToScreen exact vt (screenToWorld exact vt p)) p.
Proof.
  intros [Hlo Hhi].
  assert (Hs : ~ scale vt == 0) by (intros Hz; lra).
  split.
  - apply screenToWorld_worldToScreen; exact Hs.
  - apply worldToScreen_screenToWorld; exact Hs.
Qed.

Lemma C3_conversions_inverse_exact_witness :
  samePoint
    (screenToWorld exact panned (worldToScreen exact panned {| px := 3; py := 4 |}))
    {| px := 3; py := 4 |} /\
  samePoint
    (worldToScreen exact panned (screenToWorld exact panned {| px := 3; py := 4 |}))
    {| px := 3; py := 4 |}.
Proof.
  apply (C3_conversions_inverse_exact panned {| px := 3; py := 4 |}).
  split; cbn; discriminate.
Defined.

End CoordinatesFacts.

(* ================================================================== *)
(** * Facts about the scene and the interaction controller *)
(* ================================================================== *)

Module SceneFacts.

Import Coordinates Scene.
Local Open Scope Q_scope.

(** ** Comparisons *)

Lemma Qle_bool_cases (a b : Q) : BoolSpec (a <= b) (b < a) (Qle_bool a b).
Proof.
  destruct (Qle_bool a b) eqn:E; constructor.
  - apply Qle_bool_iff; exact E.
  - apply Qnot_le_lt. intros H. apply Qle_bool_iff in H. congruence.
Qed.

Lemma inRectangle_iff (wx wy : Q) (img : ProcessedImage) :
  inRectangle wx wy img = true <-> insideRectangle wx wy img.
Proof.
  unfold inRectangle, insideRectangle.
  rewrite !andb_true_iff, !Qle_bool_iff. tauto.
Qed.

Lemma inContent_iff (wx wy : Q) (img : ProcessedImage) (p : HTMLImageElement) :
  processedImage img = Some p ->
  (inContent wx wy img = true <-> insideContent wx wy img p).
Proof.
  intros Hp. unfold inContent, insideContent. rewrite Hp. cbn zeta.
  rewrite !andb_true_iff, !Qle_bool_iff. tauto.
Qed.

(** ** The hit-testing loop *)

(** One iteration of the loop in terms of the candidate's whole test. *)
Lemma scanDown_step (images : list ProcessedImage) (wx wy : Q) (i : nat)
    (img : ProcessedImage) :
  nth_error images i = Some img ->
  scanDown images wx wy (S i) =
  if hits wx wy img then Some img else scanDown images wx wy i.
Proof.
  intros Hn. cbn [scanDown]. rewrite Hn. unfold hits.
  destruct (inRectangle wx wy img); cbn [andb]; [|reflexivity].
  destruct (isGenerating img); cbn [orb]; [reflexivity|].
  destruct (inContent wx wy img); reflexivity.
Qed.

(** The downward loop over the first [n] objects looks for the first hit
    among them taken in reverse. *)
Lemma scanDown_find (images : list ProcessedImage) (wx wy : Q) (n : nat) :
  (n <= List.length images)%nat ->
  scanDown images wx wy n = find (hits wx wy) (rev (firstn n images)).
Proof.
  induction n as [|i IH]; intros Hn; [reflexivity|].
  destruct (nth_error images i) as [img|] eqn:Hi.
  - rewrite (scanDown_step _ _ _ _ _ Hi).
    assert (Hf : firstn (S i) images = firstn i images ++ [img]).
    { clear IH Hn. revert i Hi. induction images as [|a l IHl]; intros i Hi.
      - destruct i; discriminate Hi.
      - destruct i as [|i]; cbn in Hi.
        + inversion Hi; subst. reflexivity.
        + rewrite (firstn_cons (S i)), (firstn_cons i), (IHl i Hi). reflexivity. }
    rewrite Hf, rev_app_distr. cbn [rev app find].
    rewrite IH by lia. reflexivity.
  - apply nth_error_None in Hi. lia.
Qed.

(** Hit-testing returns the last object, in array order, that passes the test. *)
Lemma getImageAtPosition_find (vt : ViewTransform Q) (images : list ProcessedImage)
    (sx sy : Q) :
  getImageAtPosition vt images sx sy =
  let w := screenToWorld exact vt {| px := sx; py := sy |} in
  find (hits (px w) (py w)) (rev images).
Proof.
  unfold getImageAtPosition. cbn zeta.
  rewrite scanDown_find by lia. rewrite firstn_all. reflexivity.
Qed.

Lemma getImageAtPosition_In (vt : ViewTransform Q) (images : list ProcessedImage)
    (sx sy : Q) (img : ProcessedImage) :
  getImageAtPosition vt images sx sy = Some img -> In img images.
Proof.
  rewrite getImageAtPosition_find. cbn zeta. intros H.
  apply find_some in H. apply in_rev. tauto.
Qed.

Lemma getImageAtPosition_hits (vt : ViewTransform Q) (images : list ProcessedImage)
    (sx sy : Q) (img : ProcessedImage) :
  getImageAtPosition vt images sx sy = Some img ->
  let w := screenToWorld exact vt {| px := sx; py := sy |} in
  hits (px w) (py w) img = true.
Proof.
  rewrite getImageAtPosition_find. cbn zeta. intros H.
  apply find_some in H. tauto.
Qed.

(** The first hit of a list whose front part has none. *)
Lemma find_skip {A : Type} (f : A -> bool) (front : list A) (a : A) (back : list A) :
  (forall o, In o front -> f o = false) -> f a = true ->
  find f (front ++ a :: back) = Some a.
Proof.
  intros Hfront Ha. induction front as [|o front IH]; cbn.
  - rewrite Ha. reflexivity.
  - rewrite (Hfront o) by (left; reflexivity).
    apply IH. intros o' Ho'. apply Hfront. right; exact Ho'.
Qed.

(** The test reads nothing of the flip flag. *)
Lemma hits_eraseFlip (wx wy : Q) (img : ProcessedImage) :
  hits wx wy (eraseFlip img) = hits wx wy img.
Proof. reflexivity. Qed.

Lemma find_hits_eraseFlip (wx wy : Q) (l : list ProcessedImage) :
  find (hits wx wy) (map eraseFlip l) = option_map eraseFlip (find (hits wx wy) l).
Proof.
  induction l as [|a l IH]; cbn [map find]; [reflexivity|].
  rewrite hits_eraseFlip. destruct (hits wx wy a); [reflexivity|exact IH].
Qed.

Lemma getImageAtPosition_eraseFlip (vt : ViewTransform Q) (images : list ProcessedImage)
    (sx sy : Q) :
  getImageAtPosition vt (map eraseFlip images) sx sy =
  option_map eraseFlip (getImageAtPosition vt images sx sy).
Proof.
  rewrite !getImageAtPosition_find. cbn zeta.
  rewrite <- map_rev. apply find_hits_eraseFlip.
Qed.

Lemma eraseFlip_withFlipped (img : ProcessedImage) (v : option bool) :
  eraseFlip (withFlipped img v) = eraseFlip img.
Proof. reflexivity. Qed.

Lemma eraseFlip_idempotent (img : ProcessedImage) :
  eraseFlip (eraseFlip img) = eraseFlip img.
Proof. reflexivity. Qed.

(** ** State updates *)

Lemma setImages_same (f : list ProcessedImage -> list ProcessedImage) (st : State) :
  f (images st) = images st -> setImages f st = st.
Proof. intros H. destruct st. unfold setImages; cbn in *. rewrite H. reflexivity. Qed.

Lemma removeId_absent (k : nat) (l : list ProcessedImage) :
  (forall img, In img l -> id img <> k) -> removeId k l = l.
Proof.
  intros H. induction l as [|a l IH]; [reflexivity|].
  cbn. destruct (Nat.eqb_spec (id a) k) as [E|E].
  - exfalso. apply (H a); [left; reflexivity|exact E].
  - cbn. f_equal. apply IH. intros img Hin. apply H. right; exact Hin.
Qed.

Lemma updateId_absent (k : nat) (f : ProcessedImage -> ProcessedImage)
    (l : list ProcessedImage) :
  (forall img, In img l -> id img <> k) -> updateId k f l = l.
Proof.
  intros H. induction l as [|a l IH]; [reflexivity|].
  cbn. destruct (Nat.eqb_spec (id a) k) as [E|E].
  - exfalso. apply (H a); [left; reflexivity|exact E].
  - f_equal. apply IH. intros img Hin. apply H. right; exact Hin.
Qed.

Lemma removeId_In (k : nat) (l : list ProcessedImage) (img : ProcessedImage) :
  In img (removeId k l) <-> In img l /\ id img <> k.
Proof.
  unfold removeId. rewrite filter_In, negb_true_iff, Nat.eqb_neq. tauto.
Qed.

Lemma findById_absent (k : nat) (l : list ProcessedImage) :
  (forall img, In img l -> id img <> k) -> findById k l = None.
Proof.
  intros H. unfold findById. induction l as [|a l IH]; [reflexivity|].
  cbn. destruct (Nat.eqb_spec (id a) k) as [E|E].
  - exfalso. apply (H a); [left; reflexivity|exact E].
  - apply IH. intros img Hin. apply H. right; exact Hin.
Qed.

(** ** C6 *)

(** C6. In a scene with a valid view and valid images, take a screen point
    whose world image [w] lies in the rectangle of object [img]. (1) If [img] is complete ([isGenerating = false], with a
    processed image) and [w] is outside its content bounds scaled to the
    display size, hit-testing does not return [img]. (2) If [img] is still
    generating, hit-testing returns it, unless an object later in the
    array is hit first. (3) In every case the result is the first object
    passing the test when the array is read from its end: the last-added
    object wins ties. *)
Theorem C6_hit_test_respects_content_bounds
    (vt : ViewTransform Q) (images : list ProcessedImage) (sx sy : Q)
    (img : ProcessedImage) :
  let w := screenToWorld exact vt {| px := sx; py := sy |} in
  validView vt -> Forall validImage (img :: images) ->
  insideRectangle (px w) (py w) img ->
  (forall p, isGenerating img = false -> processedImage img = Some p ->
     ~ insideContent (px w) (py w) img p ->
     getImageAtPosition vt images sx sy <> Some img) /\
  (isGenerating img = true ->
     forall below above, images = below ++ img :: above ->
     (forall o, In o above -> hits (px w) (py w) o = false) ->
     getImageAtPosition vt images sx sy = Some img) /\
  getImageAtPosition vt images sx sy = find (hits (px w) (py w)) (rev images).
Proof.
  cbn zeta. intros _ _ Hrect. split; [|split].
  - intros p Hgen Hp Hout Hget.
    apply getImageAtPosition_hits in Hget. cbn zeta in Hget.
    unfold hits in Hget. rewrite Hgen in Hget. cbn [orb] in Hget.
    apply andb_true_iff in Hget. destruct Hget as [_ Hc].
    apply (inContent_iff _ _ _ p Hp) in Hc. exact (Hout Hc).
  - intros Hgen below above -> Habove.
    rewrite getImageAtPosition_find. cbn zeta.
    rewrite rev_app_distr. cbn [rev]. rewrite <- app_assoc. cbn [app].
    apply find_skip.
    + intros o Ho. apply Habove. apply in_rev. exact Ho.
    + unfold hits. rewrite Hgen, orb_true_l, andb_true_r.
      apply inRectangle_iff. exact Hrect.
  - apply getImageAtPosition_find.
Qed.

Lemma C6_hit_test_respects_content_bounds_witness :
  getImageAtPosition initialView [finished] 10 10 <> Some finished /\
  getImageAtPosition initialView [finished; pending] 10 10 = Some pending.
Proof.
  split.
  - refine (proj1 (C6_hit_test_respects_content_bounds
                     initialView [finished] 10 10 finished _ _ _) sprite _ _ _).
    + unfold validView, between; cbn; split; discriminate.
    + apply Forall_forall. intros o Ho p Hp. cbn in Ho.
      repeat (destruct Ho as [<-|Ho]; [inversion Hp; subst; split; reflexivity|]).
      contradiction.
    + unfold insideRectangle; cbn; repeat split; discriminate.
    + reflexivity.
    + reflexivity.
    + unfold insideContent; cbn. intros (H & _). apply H. reflexivity.
  - refine (proj1 (proj2 (C6_hit_test_respects_content_bounds
                     initialView [finished; pending] 10 10 pending _ _ _)) _
                  [finished] [] _ _).
    + unfold validView, between; cbn; split; discriminate.
    + apply Forall_forall. intros o Ho p Hp. cbn in Ho.
      repeat (destruct Ho as [<-|Ho]; [inversion Hp; subst; split; reflexivity|]).
      contradiction.
    + unfold insideRectangle; cbn; repeat split; discriminate.
    + reflexivity.
    + reflexivity.
    + intros o [].
Defined.

(** ** C10 *)

(** Flipping changes nothing but the flag. *)
Lemma handleFlipSelected_eraseFlip (st : State) :
  map eraseFlip (images (handleFlipSelected st)) = map eraseFlip (images st).
Proof.
  unfold handleFlipSelected.
  destruct (isActionDisabled st || negb (isSome (selectedImage st))); [reflexivity|].
  destruct (selectedImageId st) as [k|]; [|reflexivity].
  destruct (findById k (images st)); [|reflexivity].
  cbn [images setImages]. unfold updateId. rewrite map_map.
  apply map_ext. intros img. destruct (Nat.eqb (id img) k); reflexivity.
Qed.

(** C10. Two scenes that agree once the [flippedHorizontally] flags are
    erased give, for every view transform and screen point, hit-test
    results that agree once the flag is erased: both miss, or both return
    the object at the same place, which differs at most in the flag. *)
Theorem C10_hit_test_ignores_flip
    (vt : ViewTransform Q) (images1 images2 : list ProcessedImage) (sx sy : Q) :
  map eraseFlip images1 = map eraseFlip images2 ->
  option_map eraseFlip (getImageAtPosition vt images1 sx sy) =
  option_map eraseFlip (getImageAtPosition vt images2 sx sy).
Proof.
  intros H. rewrite <- !getImageAtPosition_eraseFlip, H. reflexivity.
Qed.

Lemma C10_hit_test_ignores_flip_witness :
  option_map eraseFlip
    (getImageAtPosition initialView (images (handleFlipSelected (idle [finished]))) 100 100) =
  option_map eraseFlip
    (getImageAtPosition initialView (images (idle [finished])) 100 100).
Proof.
  apply (C10_hit_test_ignores_flip initialView
           (images (handleFlipSelected (idle [finished]))) (images (idle [finished]))
           100 100).
  reflexivity.
Defined.

(** ** C7 *)

(** C7. (1) When deletion is enabled for the selected id [k],
    [handleDeleteSelected] leaves exactly the objects with another id, so
    no object with id [k] is in the scene the renderer walks, hit-testing
    never returns one, and deleting again changes nothing. (2) When no
    object of the scene has id [k], removing [k] leaves the scene
    unchanged, [handleDeleteSelected] with [k] selected leaves the state
    unchanged, and a generation settling for [k], with success or with
    failure, leaves the state unchanged. *)
Theorem C7_delete_and_late_completion (st : State) (k : nat) :
  (selectedImageId st = Some k -> isActionDisabled st = false ->
     let st' := handleDeleteSelected st in
     images st' = removeId k (images st) /\
     (forall img, In img (images st') -> id img <> k) /\
     (forall vt sx sy img,
        getImageAtPosition vt (images st') sx sy = Some img -> id img <> k) /\
     handleDeleteSelected st' = st') /\
  ((forall img, In img (images st) -> id img <> k) ->
     removeId k (images st) = images st /\
     (selectedImageId st = Some k -> handleDeleteSelected st = st) /\
     (forall g, generateFromImage k g st = st) /\
     (forall g, generateFromText k g st = st)).
Proof.
  split.
  - intros Hsel Hen. cbn zeta.
    assert (Hdel : handleDeleteSelected st =
                   setSelectedImageId None (setImages (removeId k) st)).
    { unfold handleDeleteSelected. rewrite Hen.
      unfold isActionDisabled in Hen.
      destruct (selectedImage st); [|discriminate Hen].
      cbn. rewrite Hsel. reflexivity. }
    rewrite Hdel. cbn [images setSelectedImageId setImages].
    split; [reflexivity|]. split; [|split].
    + intros img Hin. apply removeId_In in Hin. tauto.
    + intros vt sx sy img Hget. apply getImageAtPosition_In in Hget.
      apply removeId_In in Hget. tauto.
    + reflexivity.
  - intros Habs. split; [|split; [|split]].
    + apply removeId_absent; exact Habs.
    + intros Hsel. unfold handleDeleteSelected, isActionDisabled, selectedImage.
      rewrite Hsel, (findById_absent k _ Habs). reflexivity.
    + intros [url t cb sug|]; cbn [generateFromImage]; apply setImages_same.
      * apply updateId_absent; exact Habs.
      * apply removeId_absent; exact Habs.
    + intros [url t cb sug|]; cbn [generateFromText]; apply setImages_same.
      * apply updateId_absent; exact Habs.
      * apply removeId_absent; exact Habs.
Qed.

Lemma C7_delete_and_late_completion_witness :
  images (handleDeleteSelected (idle [finished; pending])) = [pending] /\
  generateFromImage 0 Failed (handleDeleteSelected (idle [finished; pending])) =
  handleDeleteSelected (idle [finished; pending]).
Proof.
  split.
  - refine (proj1 (proj1 (C7_delete_and_late_completion
                            (idle [finished; pending]) 0) _ _)).
    + reflexivity.
    + reflexivity.
  - refine (proj1 (proj2 (proj2 (proj2 (C7_delete_and_late_completion
              (handleDeleteSelected (idle [finished; pending])) 0) _))) Failed).
    intros img [<- | []]. discriminate.
Defined.

(** ** Object scaling keeps the width clamped *)

Lemma clampWidth_between (w : Q) : between MIN_WIDTH MAX_WIDTH (clampWidth w).
Proof.
  unfold clampWidth, Qltb, between, MIN_WIDTH, MAX_WIDTH.
  destruct (Qle_bool_cases 50 w); cbn [negb];
    match goal with |- context [Qle_bool ?a ?b] => destruct (Qle_bool_cases a b) end;
    cbn [negb]; lra.
Qed.

Lemma wheelScaled_clamped (scaleFactor : Q) (img : ProcessedImage) :
  widthClamped (wheelScaled scaleFactor img).
Proof. unfold widthClamped, wheelScaled; cbn. apply clampWidth_between. Qed.

Lemma pinchScaled_clamped (iw ih cx cy scale : Q) (img : ProcessedImage) :
  widthClamped (pinchScaled iw ih cx cy scale img).
Proof. unfold widthClamped, pinchScaled; cbn. apply clampWidth_between. Qed.

Section Clamped.
Variable k : nat.

#[local] Abbreviation ok := (fun img : ProcessedImage => id img = k -> widthClamped img).







Variable hypot : Q -> Q -> Q.





End Clamped.

(** ** C5 *)


(** The opening pinch drives the width of [finished] to the maximum, and
    the closing pinch drives it to the minimum. *)
Example scalingGesture_widths :
  map width (images (run axisHypot (Some windowRect) (firstn 3 scalingGesture)
                       (idle [finished]))) = [1000] /\
  map width (images (run axisHypot (Some windowRect) scalingGesture
                       (idle [finished]))) = [50].
Proof. split; vm_compute; reflexivity. Qed.


(** ** C4 *)

(** The canvas branch of [handleWheel] is taken when nothing is hit and the
    controller is neither dragging nor panning. *)
Lemma handleWheel_canvas (r : DOMRect) (e : WheelEvent) (st : State) :
  getImageAtPosition (viewTransform st) (images st)
    (wheelClientX e - left r) (wheelClientY e - top r) = None ->
  draggingImage st = None -> isPanning st = false ->
  handleWheel (Some r) e st =
  setViewTransform
    (wheelZoom (viewTransform st) (wheelClientX e - left r) (wheelClientY e - top r)
       (deltaY e)) st.
Proof.
  intros Hmiss Hdrag Hpan. unfold handleWheel. cbn zeta.
  rewrite Hmiss, Hdrag, Hpan. reflexivity.
Qed.

Lemma clampScale_between (s : Q) : between MIN_SCALE MAX_SCALE (clampScale s).
Proof.
  unfold clampScale, between. split.
  - apply Q.le_max_l.
  - apply Q.max_lub.
    + unfold MIN_SCALE, MAX_SCALE. lra.
    + apply Q.le_min_l.
Qed.

(** C4. From a valid view, when the wheel turns with the cursor at canvas
    point [s] over empty canvas, with no drag and no pan in progress, the new view
    transform has its scale clamped to [[0.2, 3.0]], its offset is
    [s - world * newScale] for the world point [world] that was under [s],
    and it maps [world] back to [s], in exact arithmetic. *)
Theorem C4_zoom_keeps_cursor_point (r : DOMRect) (e : WheelEvent) (st : State) :
  let s := {| px := wheelClientX e - left r; py := wheelClientY e - top r |} in
  validView (viewTransform st) ->
  getImageAtPosition (viewTransform st) (images st) (px s) (py s) = None ->
  draggingImage st = None -> isPanning st = false ->
  let world := screenToWorld exact (viewTransform st) s in
  let vt' := viewTransform (handleWheel (Some r) e st) in
  between 0.2 3.0 (scale vt') /\
  offsetX vt' = px s - px world * scale vt' /\
  offsetY vt' = py s - py world * scale vt' /\
  samePoint (worldToScreen exact vt' world) s.
Proof.
  cbn zeta. cbn [px py]. intros _ Hmiss Hdrag Hpan.
  rewrite (handleWheel_canvas r e st Hmiss Hdrag Hpan).
  cbn [viewTransform setViewTransform].
  unfold wheelZoom. cbn zeta. cbn [scale offsetX offsetY].
  split; [apply clampScale_between|].
  split; [reflexivity|]. split; [reflexivity|].
  unfold samePoint, worldToScreen, screenToWorld; cbn. split; ring.
Qed.

Lemma C4_zoom_keeps_cursor_point_witness :
  let e := {| wheelClientX := 400; wheelClientY := 300; deltaY := -100 |} in
  let s := {| px := 400; py := 300 |} in
  let st := idle [finished] in
  let world := screenToWorld exact (viewTransform st) s in
  let vt' := viewTransform (handleWheel (Some windowRect) e st) in
  between 0.2 3.0 (scale vt') /\
  offsetX vt' = px s - px world * scale vt' /\
  offsetY vt' = py s - py world * scale vt' /\
  samePoint (worldToScreen exact vt' world) s.
Proof.
  apply (C4_zoom_keeps_cursor_point windowRect
           {| wheelClientX := 400; wheelClientY := 300; deltaY := -100 |}
           (idle [finished])).
  - unfold validView, between; cbn; split; discriminate.
  - reflexivity.
  - reflexivity.
  - reflexivity.
Defined.

(** ** C9 *)

Lemma withPosition_sameExceptPosition (img : ProcessedImage) (newX newY : Q) :
  sameExceptPosition (withPosition img newX newY) img.
Proof. reflexivity. Qed.




End SceneFacts.

(* ================================================================== *)
(** * Facts about the remix suggestions *)
(* ================================================================== *)

Module GeminiFacts.

Import Gemini.
Local Open Scope string_scope.

Lemma readSuggestions_length (w : World) (responseText : option string) :
  (List.length (readSuggestions w responseText) <= 5)%nat.
Proof.
  unfold readSuggestions.
  destruct responseText as [text|]; [|cbn; lia].
  destruct (JSONparse w (trim w text)) as [result|]; [|cbn; lia].
  destruct (getPrompts result) as [[[]|]|]; try (cbn; lia).
  destruct (0 <? List.length items)%nat; [|cbn; lia].
  rewrite length_firstn. lia.
Qed.

Lemma allStrings_firstn (n : nat) (l : list Json) :
  allStrings l -> allStrings (firstn n l).
Proof.
  unfold allStrings. intros H. revert n.
  induction H as [|j l Hj Hl IH]; intros [|n]; cbn [firstn]; constructor.
  - exact Hj.
  - apply IH.
Qed.

(** What is read from a response whose [prompts] is the array [items]. *)
Lemma readSuggestions_prompts (w : World) (text : string) (result : Json)
    (items : list Json) :
  JSONparse w (trim w text) = Some result ->
  getPrompts result = Some (Some (JArray items)) ->
  readSuggestions w (Some text) = firstn 5 items.
Proof.
  intros Hp Hg. unfold readSuggestions. rewrite Hp, Hg.
  destruct items as [|j items]; reflexivity.
Qed.

(** C8, as stated, fails: without [API_KEY] the function throws to its
    caller. *)
Lemma C8_throws_without_api_key :
  getRemixSuggestions (world None (Some (Some "{}")) (Some sevenPrompts))
    "suggestion-source.png" "remix"
  = Throws "API_KEY environment variable not set. Please ensure it's configured.".
Proof. reflexivity. Qed.

(** C8, amended. With [API_KEY] set and the image file read,
    [getRemixSuggestions] returns, and never throws: the list it returns
    has at most 5 entries, is the first five entries of the [prompts]
    array of the parsed response, strings when that array holds strings,
    and is empty when the request fails, when the response has no text,
    when the text does not parse, and when the parsed value has no
    [prompts] to read. With [API_KEY] missing the function throws to its
    caller. *)
Theorem C8_suggestions_best_effort (w : World) (imageFile prompt : string) :
  (missing (API_KEY w) = true ->
     exists m, getRemixSuggestions w imageFile prompt = Throws m) /\
  (missing (API_KEY w) = false ->
   forall base64, fileToBase64 w imageFile = Some base64 ->
   exists l,
     getRemixSuggestions w imageFile prompt = Returns l /\
     (List.length l <= 5)%nat /\
     (generateContent w prompt base64 = None -> l = []) /\
     (generateContent w prompt base64 = Some None -> l = []) /\
     (forall text, generateContent w prompt base64 = Some (Some text) ->
        (JSONparse w (trim w text) = None -> l = []) /\
        (forall result, JSONparse w (trim w text) = Some result ->
           (getPrompts result = None -> l = []) /\
           (getPrompts result = Some None -> l = []) /\
           (forall items, getPrompts result = Some (Some (JArray items)) ->
              l = firstn 5 items /\ (allStrings items -> allStrings l))))).
Proof.
  unfold getRemixSuggestions. split.
  - intros ->. eexists; reflexivity.
  - intros -> base64 ->.
    destruct (generateContent w prompt base64) as [[text|]|] eqn:Hreq.
    + exists (readSuggestions w (Some text)).
      split; [reflexivity|]. split; [apply readSuggestions_length|].
      split; [discriminate|]. split; [discriminate|].
      intros text' Heq. inversion Heq; subst text'. split.
      * intros Hp. unfold readSuggestions. rewrite Hp. reflexivity.
      * intros result Hp. split; [|split].
        -- intros Hg. unfold readSuggestions. rewrite Hp, Hg. reflexivity.
        -- intros Hg. unfold readSuggestions. rewrite Hp, Hg. reflexivity.
        -- intros items Hg. rewrite (readSuggestions_prompts w text result items Hp Hg).
           split; [reflexivity|]. apply allStrings_firstn.
    + exists []. split; [reflexivity|]. split; [cbn; lia|].
      split; [reflexivity|]. split; [reflexivity|]. intros text Heq. discriminate Heq.
    + exists []. split; [reflexivity|]. split; [cbn; lia|].
      split; [reflexivity|]. split; [reflexivity|]. intros text Heq. discriminate Heq.
Qed.

Lemma C8_suggestions_best_effort_witness :
  exists l,
    getRemixSuggestions (world (Some "key") (Some (Some "{}")) (Some sevenPrompts))
      "suggestion-source.png" "remix" = Returns l /\
    (List.length l <= 5)%nat.
Proof.
  destruct (proj2 (C8_suggestions_best_effort
              (world (Some "key") (Some (Some "{}")) (Some sevenPrompts))
              "suggestion-source.png" "remix") eq_refl "iVBORw0KGgo=" eq_refl)
    as (l & Hl & Hlen & _).
  exists l. split; [exact Hl|exact Hlen].
Defined.

End GeminiFacts.

(* ================================================================== *)
(** * Further facts about the transparency processor *)
(* ================================================================== *)

Module TransparencyLaws.

Import Transparency TransparencyFacts.
Local Open Scope Z_scope.

(** Induction over a buffer four entries at a time. *)
Lemma buffer_ind (P : list Z -> Prop) :
  P [] -> (forall a, P [a]) -> (forall a b, P [a; b]) -> (forall a b c, P [a; b; c]) ->
  (forall r g b a rest, P rest -> P (r :: g :: b :: a :: rest)) ->
  forall d, P d.
Proof.
  intros H0 H1 H2 H3 H4 d.
  remember (List.length d) as n eqn:Hn. revert d Hn.
  induction n as [n IH] using lt_wf_ind. intros d Hn.
  destruct d as [|r [|g [|b [|a rest]]]]; auto.
  apply H4. apply (IH (List.length rest)); [cbn in Hn; lia|reflexivity].
Qed.

Section KeyOutLaws.
Variables t bgR bgG bgB : Z.

Lemma keyOut_length (d : list Z) :
  List.length (keyOut t bgR bgG bgB d) = List.length d.
Proof.
  induction d as [| | | |r g b a rest IH] using buffer_ind; try reflexivity.
  cbn [keyOut List.length]. rewrite IH. reflexivity.
Qed.

(** The colour entries [4k], [4k + 1], [4k + 2] are never written. *)
Lemma keyOut_colour (k c : nat) : forall d : list Z,
  (c < 3)%nat ->
  nth (4 * k + c) (keyOut t bgR bgG bgB d) 0 = nth (4 * k + c) d 0.
Proof.
  induction k as [|k IH]; intros d Hc.
  - destruct d as [|r [|g [|b [|a rest]]]]; try reflexivity.
    destruct c as [|[|[|c]]]; try lia; reflexivity.
  - destruct d as [|r [|g [|b [|a rest]]]];
      try (replace (4 * S k + c)%nat with (S (S (S (S (4 * k + c))))) by lia;
           cbn [keyOut]; reflexivity).
    replace (4 * S k + c)%nat with (S (S (S (S (4 * k + c))))) by lia.
    cbn [keyOut nth]. apply IH. exact Hc.
Qed.

End KeyOutLaws.



(** The pass writes alpha entries only: the buffer keeps its length and
    every pixel keeps its red, green and blue. *)
Theorem processPixels_keeps_colours (threshold : Z) (img : ImageData) (c x y : Z) :
  inside img x y -> 0 <= c < 3 ->
  List.length (data (transparentImage (processPixels threshold img))) =
    List.length (data img) /\
  channel (transparentImage (processPixels threshold img)) c x y = channel img c x y.
Proof.
  intros (Hx & Hy) Hc. unfold processPixels. cbn [transparentImage width height data].
  split; [apply keyOut_length|].
  unfold channel, at_. cbn [width data].
  assert (Hk : 0 <= y * width img + x) by nia.
  replace (Z.to_nat ((y * width img + x) * 4 + c))
    with (4 * Z.to_nat (y * width img + x) + Z.to_nat c)%nat by lia.
  apply keyOut_colour. lia.
Qed.

Lemma processPixels_keeps_colours_witness :
  List.length (data (transparentImage (processPixels 20 threePixels))) =
    List.length (data threePixels) /\
  channel (transparentImage (processPixels 20 threePixels)) 0 1 0 =
    channel threePixels 0 1 0.
Proof.
  apply (processPixels_keeps_colours 20 threePixels 0 1 0).
  - unfold inside; cbn; lia.
  - lia.
Defined.

(** The bounding box is never empty and never leaves the image. *)
Theorem contentBounds_in_image (threshold : Z) (img : ImageData) :
  0 < width img -> 0 < height img ->
  let b := contentBounds (processPixels threshold img) in
  within b (fullExtent (width img) (height img)) /\
  0 < cbWidth b /\ 0 < cbHeight b.
Proof.
  intros Hw Hh. cbn zeta. unfold processPixels. cbn [contentBounds].
  set (d' := keyOut _ _ _ _ _).
  set (e0 := {| minX := width img; minY := height img; maxX := -1; maxY := -1 |}).
  rewrite scan_points. set (e := fold_left _ _ e0).
  destruct (track_touches (width img) d' (Transparency.points (width img) (height img)) e0)
    as (T1 & T2 & T3 & T4).
  fold e in T1, T2, T3, T4. cbn [minX minY maxX maxY e0] in T1, T2, T3, T4.
  assert (B1 : 0 <= minX e <= width img).
  { destruct T1 as [T1 | (y1 & I1 & _)]; [lia|]. apply In_points in I1. lia. }
  assert (B2 : -1 <= maxX e < width img).
  { destruct T2 as [T2 | (y2 & I2 & _)]; [lia|]. apply In_points in I2. lia. }
  assert (B3 : 0 <= minY e <= height img).
  { destruct T3 as [T3 | (x3 & I3 & _)]; [lia|]. apply In_points in I3. lia. }
  assert (B4 : -1 <= maxY e < height img).
  { destruct T4 as [T4 | (x4 & I4 & _)]; [lia|]. apply In_points in I4. lia. }
  unfold boundsOf.
  destruct (Z.geb_spec (maxX e) (minX e)); destruct (Z.geb_spec (maxY e) (minY e));
    cbn [andb]; unfold within, fullExtent; cbn [cbX cbY cbWidth cbHeight]; lia.
Qed.

Lemma contentBounds_in_image_witness :
  let b := contentBounds (processPixels 20 threePixels) in
  within b (fullExtent (width threePixels) (height threePixels)) /\
  0 < cbWidth b /\ 0 < cbHeight b.
Proof.
  apply (contentBounds_in_image 20 threePixels); cbn; lia.
Defined.

(** The top-left pixel is the background's own colour, so any non-zero
    threshold keys it out. *)
Theorem top_left_keyed_out (threshold : Z) (img : ImageData) :
  wellFormed img -> threshold <> 0 ->
  alpha (transparentImage (processPixels threshold img)) 0 0 = 0.
Proof.
  intros Hwf Ht. rewrite alpha_processed; [|exact Hwf|].
  - assert (Hd : distanceSquared img 0 0 = 0) by (unfold distanceSquared; lia).
    rewrite Hd. destruct (Z.ltb_spec 0 (threshold * threshold)); [reflexivity|nia].
  - destruct Hwf as (Hw & Hh & _). unfold inside. lia.
Qed.

Lemma top_left_keyed_out_witness :
  alpha (transparentImage (processPixels 20 twoPixels)) 0 0 = 0.
Proof.
  apply (top_left_keyed_out 20 twoPixels).
  - unfold wellFormed; cbn; lia.
  - lia.
Defined.

(** An image whose every pixel is closer to the top-left colour than the
    threshold comes out fully transparent, with the full extent as box. *)
Theorem uniform_image_full_extent (threshold : Z) (img : ImageData) :
  wellFormed img ->
  (forall x y, inside img x y -> distanceSquared img x y < threshold * threshold) ->
  (forall x y, inside img x y ->
     alpha (transparentImage (processPixels threshold img)) x y = 0) /\
  contentBounds (processPixels threshold img) = fullExtent (width img) (height img).
Proof.
  intros Hwf Hnear.
  assert (Hzero : forall x y, inside img x y ->
            alpha (transparentImage (processPixels threshold img)) x y = 0).
  { intros x y Hin. rewrite alpha_processed by assumption.
    destruct (Z.ltb_spec (distanceSquared img x y) (threshold * threshold));
      [reflexivity|]. specialize (Hnear x y Hin). lia. }
  split; [exact Hzero|].
  destruct Hwf as (Hw & Hh & Hlen).
  destruct (contentBounds_spec threshold img Hw Hh) as [_ Hnone].
  apply Hnone. intros (x & y & Hin & Hv).
  rewrite (Hzero x y Hin) in Hv. lia.
Qed.

Lemma uniform_image_full_extent_witness :
  (forall x y, inside twoPixels x y ->
     alpha (transparentImage (processPixels 500 twoPixels)) x y = 0) /\
  contentBounds (processPixels 500 twoPixels) =
    fullExtent (width twoPixels) (height twoPixels).
Proof.
  apply (uniform_image_full_extent 500 twoPixels).
  - unfold wellFormed; cbn; lia.
  - intros x y (Hx & Hy). cbn in Hx, Hy.
    assert (y = 0) by lia. assert (x = 0 \/ x = 1) by lia.
    subst y. destruct H0; subst x; reflexivity.
Defined.

End TransparencyLaws.

(* ================================================================== *)
(** * Invariants of a session *)
(* ================================================================== *)

Module SessionLaws.

Import Coordinates Scene SceneFacts.
Local Open Scope Q_scope.

(** ** Every action evolves the scene in one of seven ways *)

Lemma updateId_map (k : nat) (f : ProcessedImage -> ProcessedImage)
    (l : list ProcessedImage) :
  updateId k f l = map (fun img => if Nat.eqb (id img) k then f img else img) l.
Proof. reflexivity. Qed.

Lemma gentle_at (k : nat) (f : ProcessedImage -> ProcessedImage) :
  gentle f -> gentle (fun img => if Nat.eqb (id img) k then f img else img).
Proof.
  intros Hf img. destruct (Nat.eqb (id img) k); [apply Hf|]. split; auto.
Qed.

Lemma gentle_wheelScaled (s : Q) : gentle (wheelScaled s).
Proof. intros img. split; [reflexivity|]. intros _. apply wheelScaled_clamped. Qed.

Lemma gentle_pinchScaled (iw ih cx cy s : Q) : gentle (pinchScaled iw ih cx cy s).
Proof. intros img. split; [reflexivity|]. intros _. apply pinchScaled_clamped. Qed.

Lemma gentle_withPosition (a b : Q) : gentle (fun img => withPosition img a b).
Proof. intros img. split; [reflexivity|]. intros H; exact H. Qed.

Lemma gentle_regenerating : gentle regenerating.
Proof. intros img. split; [reflexivity|]. intros H; exact H. Qed.

Lemma gentle_flip :
  gentle (fun img => withFlipped img (Some (negb (truthyBool (flippedHorizontally img))))).
Proof. intros img. split; [reflexivity|]. intros H; exact H. Qed.

Lemma gentle_completedFromImage url t cb sug : gentle (completedFromImage url t cb sug).
Proof.
  intros img. split; [reflexivity|]. intros _.
  unfold widthClamped, between; cbn. split; discriminate.
Qed.

Lemma gentle_completedFromText url t cb sug : gentle (completedFromText url t cb sug).
Proof.
  intros img. split; [reflexivity|]. intros _.
  unfold widthClamped, between; cbn. split; discriminate.
Qed.

Lemma Evolves_updateId (st : State) (k : nat) (f : ProcessedImage -> ProcessedImage) :
  gentle f -> Evolves st (setImages (updateId k f) st).
Proof.
  intros Hf. apply (EvEdit _ _ (fun img => if Nat.eqb (id img) k then f img else img)).
  - apply gentle_at; exact Hf.
  - reflexivity.
  - reflexivity.
Qed.

Lemma Evolves_refl (st : State) : Evolves st st.
Proof. apply EvSame; reflexivity. Qed.

Lemma handleWheel_evolves (rect : option DOMRect) (e : WheelEvent) (st : State) :
  Evolves st (handleWheel rect e st).
Proof.
  unfold handleWheel. destruct rect as [r|]; [|apply Evolves_refl]. cbn zeta.
  assert (Hzoom : forall v,
            Evolves st (if negb (isSome (draggingImage st)) && negb (isPanning st)
                        then setViewTransform v st else st)).
  { intros v. destruct (negb (isSome (draggingImage st)) && negb (isPanning st));
      apply EvSame; reflexivity. }
  destruct (getImageAtPosition _ _ _ _) as [target|]; [|apply Hzoom].
  destruct (isGenerating target); cbn [negb]; [apply Hzoom|].
  apply Evolves_updateId. apply gentle_wheelScaled.
Qed.

Lemma handleInteractionStart_evolves (rect : option DOMRect) (cx cy : Q) (st : State) :
  Evolves st (handleInteractionStart rect cx cy st).
Proof.
  unfold handleInteractionStart. destruct rect as [r|]; [|apply Evolves_refl].
  destruct (getImageAtPosition _ _ _ _) as [target|] eqn:Hget.
  - apply (EvRaise _ _ target); [|reflexivity|reflexivity].
    exact (getImageAtPosition_In _ _ _ _ _ Hget).
  - apply EvSame; reflexivity.
Qed.

Lemma handleInteractionMove_evolves (rect : option DOMRect) (cx cy : Q) (st : State) :
  Evolves st (handleInteractionMove rect cx cy st).
Proof.
  unfold handleInteractionMove. destruct rect as [r|]; [|apply Evolves_refl].
  destruct (draggingImage st) as [d|].
  - apply Evolves_updateId. apply gentle_withPosition.
  - destruct (isPanning st); [apply EvSame; reflexivity|].
    destruct (getImageAtPosition _ _ _ _); apply EvSame; reflexivity.
Qed.

Lemma dispatch_evolves (hypot : Q -> Q -> Q) (rect : option DOMRect) (st : State)
    (ev : CanvasEvent) :
  Evolves st (dispatch hypot rect st ev).
Proof.
  destruct ev as [cx cy|cx cy| |e|ts|ts|ts]; cbn [dispatch].
  - apply handleInteractionStart_evolves.
  - apply handleInteractionMove_evolves.
  - apply EvSame; reflexivity.
  - apply handleWheel_evolves.
  - unfold handleTouchStart. destruct rect as [r|]; [|apply Evolves_refl].
    destruct ts as [|t1 [|t2 [|t3 rest]]]; try apply Evolves_refl.
    + destruct (negb (isSome (pinchState st))); [|apply Evolves_refl].
      apply handleInteractionStart_evolves.
    + cbn zeta.
      destruct (getImageAtPosition _ _ _ _) as [target|] eqn:Hget;
        [|apply EvSame; reflexivity].
      destruct (isGenerating target); cbn [negb]; [apply EvSame; reflexivity|].
      apply (EvRaise _ _ target); [|reflexivity|reflexivity].
      exact (getImageAtPosition_In _ _ _ _ _ Hget).
  - unfold handleTouchMove.
    destruct ts as [|t1 [|t2 [|t3 rest]]]; try apply Evolves_refl.
    + destruct (negb (isSome (pinchState st))); [|apply Evolves_refl].
      apply handleInteractionMove_evolves.
    + cbn zeta.
      destruct (pinchState st) as [[j d0 iw ih cx cy | d0 vt0 mid]|];
        [| |apply Evolves_refl].
      * apply Evolves_updateId. apply gentle_pinchScaled.
      * destruct rect as [r|]; apply EvSame; reflexivity.
  - unfold handleTouchEnd.
    destruct (List.length ts <? 2)%nat; apply EvSame; reflexivity.
Qed.

Lemma handleDeleteSelected_evolves (st : State) : Evolves st (handleDeleteSelected st).
Proof.
  unfold handleDeleteSelected.
  destruct (isActionDisabled st || negb (isSome (selectedImage st))); [apply Evolves_refl|].
  destruct (selectedImageId st) as [k|].
  - apply (EvRemove _ _ k); reflexivity.
  - apply EvSame; reflexivity.
Qed.

Lemma handleRegenerateSelected_evolves (st : State) :
  Evolves st (handleRegenerateSelected st).
Proof.
  unfold handleRegenerateSelected.
  destruct (isActionDisabled st || negb (isSome (selectedImage st))); [apply Evolves_refl|].
  destruct (selectedImageId st) as [k|]; [|apply Evolves_refl].
  destruct (findById k (images st)); [|apply Evolves_refl].
  apply Evolves_updateId. apply gentle_regenerating.
Qed.

Lemma handleFlipSelected_evolves (st : State) : Evolves st (handleFlipSelected st).
Proof.
  unfold handleFlipSelected.
  destruct (isActionDisabled st || negb (isSome (selectedImage st))); [apply Evolves_refl|].
  destruct (selectedImageId st) as [k|]; [|apply Evolves_refl].
  destruct (findById k (images st)); [|apply Evolves_refl].
  apply Evolves_updateId. apply gentle_flip.
Qed.

Lemma findById_In (k : nat) (l : list ProcessedImage) (img : ProcessedImage) :
  findById k l = Some img -> In img l /\ id img = k.
Proof.
  unfold findById. intros H. apply find_some in H. destruct H as [Hin Hk].
  split; [exact Hin|]. apply Nat.eqb_eq. exact Hk.
Qed.

Lemma handleDuplicateSelected_evolves (st : State) :
  Evolves st (handleDuplicateSelected st).
Proof.
  unfold handleDuplicateSelected.
  destruct (isActionDisabled st || negb (isSome (selectedImage st))); [apply Evolves_refl|].
  destruct (selectedImageId st) as [k|]; [|apply Evolves_refl].
  destruct (findById k (images st)) as [src|] eqn:Hf; [|apply Evolves_refl].
  apply (EvAdd _ _ (duplicated src (nextId st))); try reflexivity.
  intros Hall. apply findById_In in Hf. rewrite Forall_forall in Hall.
  exact (Hall src (proj1 Hf)).
Qed.

Lemma handleRemixSubmit_evolves (remixFile : option File) (prompt : string) (st : State) :
  Evolves st (handleRemixSubmit remixFile prompt st).
Proof.
  unfold handleRemixSubmit.
  destruct (isActionDisabled st || negb (isSome (selectedImage st))); [apply Evolves_refl|].
  destruct (selectedImageId st) as [k|]; [|apply Evolves_refl].
  destruct (findById k (images st)) as [src|] eqn:Hf; [|apply Evolves_refl].
  destruct (processedImage src); [|apply Evolves_refl].
  destruct remixFile as [file|].
  - apply (EvAdd _ _ (remixPlaceholder (nextId st) file prompt src)); try reflexivity.
    intros Hall. apply findById_In in Hf. rewrite Forall_forall in Hall.
    exact (Hall src (proj1 Hf)).
  - apply EvSkip; reflexivity.
Qed.

Lemma handleKeyDown_evolves (focused : bool) (key : string) (st : State) :
  Evolves st (handleKeyDown focused key st).
Proof.
  unfold handleKeyDown.
  destruct focused; [apply Evolves_refl|].
  destruct (String.eqb key "m" && isSome (selectedImageId st)).
  { destruct (selectedImageId st) as [k|]; [|apply Evolves_refl].
    eapply EvEdit; [|reflexivity|reflexivity].
    intros img. cbn beta.
    destruct (Nat.eqb (id img) k && truthyString (originalImageUrl img));
      split; auto. }
  destruct (negb (isSome (selectedImageId st)) || isActionDisabled st);
    [apply Evolves_refl|].
  destruct (includes arrowKeys key).
  { destruct (selectedImageId st) as [k|]; [|apply Evolves_refl].
    destruct (findById k (images st)); [|apply Evolves_refl].
    cbn zeta. apply Evolves_updateId. apply gentle_withPosition. }
  destruct (String.eqb key "Delete" || String.eqb key "Backspace");
    [apply handleDeleteSelected_evolves|].
  destruct (String.eqb key "r"); [apply handleRegenerateSelected_evolves|].
  destruct (String.eqb key "f"); [apply handleFlipSelected_evolves|].
  destruct (String.eqb key "d"); [apply handleDuplicateSelected_evolves|].
  apply Evolves_refl.
Qed.

Lemma placeholder_clamped (q : Q) : q = 250 -> between MIN_WIDTH MAX_WIDTH q.
Proof. intros ->. unfold between, MIN_WIDTH, MAX_WIDTH. split; discriminate. Qed.

Lemma step_evolves (hypot : Q -> Q -> Q) (trim : string -> string) (st : State)
    (a : Action) :
  Evolves st (step hypot trim st a).
Proof.
  destruct a; cbn [step].
  - apply dispatch_evolves.
  - apply handleKeyDown_evolves.
  - apply handleRegenerateSelected_evolves.
  - apply handleFlipSelected_evolves.
  - apply handleDuplicateSelected_evolves.
  - apply handleDeleteSelected_evolves.
  - unfold handleTextSubmit. cbn zeta.
    destruct (String.eqb (trim textInput) ""); [apply Evolves_refl|].
    apply (EvAdd _ _ (textPlaceholder (nextId st) (trim textInput)
                        (screenToWorld exact (viewTransform st) (viewCenter vp))));
      try reflexivity.
    intros _. apply placeholder_clamped. reflexivity.
  - unfold addImageToCanvas. cbn zeta.
    apply (EvAdd _ _ (imagePlaceholder (nextId st) file previewUrl
                        (screenToWorld exact (viewTransform st)
                           match customPosition with
                           | Some p => p
                           | None => viewCenter vp
                           end)));
      try reflexivity.
    intros _. apply placeholder_clamped. reflexivity.
  - apply handleRemixSubmit_evolves.
  - destruct g as [url t cb sug|]; cbn [generateFromImage].
    + apply Evolves_updateId. apply gentle_completedFromImage.
    + apply (EvRemove _ _ k); reflexivity.
  - destruct g as [url t cb sug|]; cbn [generateFromText].
    + apply Evolves_updateId. apply gentle_completedFromText.
    + apply (EvRemove _ _ k); reflexivity.
  - apply EvClear; reflexivity.
Qed.

(** ** Ids stay fresh *)

Lemma NoDup_ids_removeId (k : nat) (l : list ProcessedImage) :
  NoDup (map id l) -> NoDup (map id (removeId k l)).
Proof.
  induction l as [|a l IH]; intros H; [constructor|].
  cbn in H. inversion H as [|? ? Hnotin Hrest]; subst.
  cbn. destruct (negb (Nat.eqb (id a) k)); [|apply IH; exact Hrest].
  cbn. constructor; [|apply IH; exact Hrest].
  intros Hin. apply Hnotin. apply in_map_iff in Hin. destruct Hin as (b & Hb & Hinb).
  apply in_map_iff. exists b. split; [exact Hb|].
  apply removeId_In in Hinb. tauto.
Qed.

Lemma NoDup_snoc (l : list nat) (n : nat) :
  NoDup l -> ~ In n l -> NoDup (l ++ [n]).
Proof.
  intros Hl Hn. induction Hl as [|a l Ha Hl IH]; cbn.
  - constructor; [intros []|constructor].
  - constructor.
    + intros Hin. apply in_app_or in Hin. destruct Hin as [Hin|[Heq|[]]].
      * exact (Ha Hin).
      * apply Hn. left. symmetry. exact Heq.
    + apply IH. intros Hin. apply Hn. right. exact Hin.
Qed.

Lemma Evolves_freshIds (st st' : State) :
  Evolves st st' -> freshIds st -> freshIds st'.
Proof.
  intros Hev [Hnd Hlt]. unfold freshIds.
  destruct Hev as [Hi Hn|g Hg Hi Hn|k Hi Hn|t Ht Hi Hn|new Hid _ Hi Hn|Hi Hn|Hi Hn];
    rewrite Hi, Hn.
  - split; assumption.
  - assert (Hids : map id (map g (images st)) = map id (images st)).
    { rewrite map_map. apply map_ext. intros img. apply Hg. }
    rewrite Hids. split; [exact Hnd|].
    apply Forall_map. apply (Forall_impl _ (P := fun img => (id img < nextId st)%nat));
      [|exact Hlt].
    intros img Himg. destruct (Hg img) as [-> _]. exact Himg.
  - split; [apply NoDup_ids_removeId; exact Hnd|].
    rewrite Forall_forall in *. intros img Hin. apply removeId_In in Hin.
    apply Hlt. tauto.
  - split.
    + rewrite map_app. cbn [map]. apply NoDup_snoc.
      * apply NoDup_ids_removeId; exact Hnd.
      * intros Hin. apply in_map_iff in Hin. destruct Hin as (b & Hb & Hinb).
        apply removeId_In in Hinb. destruct Hinb as [_ Hne]. exact (Hne Hb).
    + apply Forall_app. rewrite !Forall_forall in *. split.
      * intros img Hin. apply removeId_In in Hin. apply Hlt. tauto.
      * intros img [<-|[]]. apply Hlt. exact Ht.
  - split.
    + rewrite map_app. cbn [map]. apply NoDup_snoc; [exact Hnd|].
      rewrite Hid. intros Hin. apply in_map_iff in Hin. destruct Hin as (b & Hb & Hinb).
      rewrite Forall_forall in Hlt. specialize (Hlt b Hinb). lia.
    + apply Forall_app. rewrite !Forall_forall in *. split.
      * intros img Hin. specialize (Hlt img Hin). lia.
      * intros img [<-|[]]. rewrite Hid. lia.
  - split; [exact Hnd|]. rewrite Forall_forall in *.
    intros img Hin. specialize (Hlt img Hin). lia.
  - split; constructor.
Qed.

(** In every state a session reaches, the objects have pairwise distinct
    ids, all below the id the next object will get. *)
Theorem session_ids_fresh (hypot : Q -> Q -> Q) (trim : string -> string)
    (actions : list Action) :
  freshIds (session hypot trim actions).
Proof.
  unfold session.
  assert (H0 : freshIds initialState) by (split; constructor).
  revert H0. generalize initialState as st.
  induction actions as [|a actions IH]; intros st Hst; cbn [fold_left]; [exact Hst|].
  apply IH. apply (Evolves_freshIds st); [apply step_evolves|exact Hst].
Qed.

(** ** Sizes stay in range *)

Lemma Evolves_widths (st st' : State) :
  Evolves st st' -> Forall widthClamped (images st) -> Forall widthClamped (images st').
Proof.
  intros Hev Hall.
  destruct Hev as [Hi Hn|g Hg Hi Hn|k Hi Hn|t Ht Hi Hn|new Hid Hnew Hi Hn|Hi Hn|Hi Hn];
    rewrite Hi.
  - exact Hall.
  - apply Forall_map. apply (Forall_impl _ (P := widthClamped)); [|exact Hall].
    intros img. apply Hg.
  - rewrite Forall_forall in *. intros img Hin. apply removeId_In in Hin.
    apply Hall. tauto.
  - apply Forall_app. rewrite !Forall_forall in *. split.
    + intros img Hin. apply removeId_In in Hin. apply Hall. tauto.
    + intros img [<-|[]]. apply Hall. exact Ht.
  - apply Forall_app. split; [exact Hall|]. constructor; [|constructor].
    apply Hnew. exact Hall.
  - exact Hall.
  - constructor.
Qed.

Lemma handleWheel_validView (rect : option DOMRect) (e : WheelEvent) (st : State) :
  validView (viewTransform st) -> validView (viewTransform (handleWheel rect e st)).
Proof.
  intros H. unfold handleWheel. destruct rect as [r|]; [|exact H]. cbn zeta.
  assert (Hzoom :
    validView (viewTransform
      (if negb (isSome (draggingImage st)) && negb (isPanning st)
       then setViewTransform
              (wheelZoom (viewTransform st) (wheelClientX e - left r)
                 (wheelClientY e - top r) (deltaY e)) st
       else st))).
  { destruct (negb (isSome (draggingImage st)) && negb (isPanning st)); [|exact H].
    cbn [viewTransform setViewTransform]. unfold validView, wheelZoom. cbn [scale].
    apply clampScale_between. }
  destruct (getImageAtPosition _ _ _ _) as [target|]; [|exact Hzoom].
  destruct (isGenerating target); cbn [negb]; [exact Hzoom|exact H].
Qed.

Lemma handleInteractionStart_validView (rect : option DOMRect) (cx cy : Q) (st : State) :
  validView (viewTransform st) ->
  validView (viewTransform (handleInteractionStart rect cx cy st)).
Proof.
  intros H. unfold handleInteractionStart. destruct rect as [r|]; [|exact H].
  destruct (getImageAtPosition _ _ _ _); exact H.
Qed.

Lemma handleInteractionMove_validView (rect : option DOMRect) (cx cy : Q) (st : State) :
  validView (viewTransform st) ->
  validView (viewTransform (handleInteractionMove rect cx cy st)).
Proof.
  intros H. unfold handleInteractionMove. destruct rect as [r|]; [|exact H].
  destruct (draggingImage st); [exact H|].
  destruct (isPanning st); [exact H|].
  destruct (getImageAtPosition _ _ _ _); exact H.
Qed.

Lemma dispatch_validView (hypot : Q -> Q -> Q) (rect : option DOMRect) (st : State)
    (ev : CanvasEvent) :
  validView (viewTransform st) -> validView (viewTransform (dispatch hypot rect st ev)).
Proof.
  intros H. destruct ev as [cx cy|cx cy| |e|ts|ts|ts]; cbn [dispatch].
  - apply handleInteractionStart_validView; exact H.
  - apply handleInteractionMove_validView; exact H.
  - exact H.
  - apply handleWheel_validView; exact H.
  - unfold handleTouchStart. destruct rect as [r|]; [|exact H].
    destruct ts as [|t1 [|t2 [|t3 rest]]]; try exact H.
    + destruct (negb (isSome (pinchState st))); [|exact H].
      apply handleInteractionStart_validView; exact H.
    + cbn zeta. destruct (getImageAtPosition _ _ _ _) as [target|]; [|exact H].
      destruct (isGenerating target); exact H.
  - unfold handleTouchMove.
    destruct ts as [|t1 [|t2 [|t3 rest]]]; try exact H.
    + destruct (negb (isSome (pinchState st))); [|exact H].
      apply handleInteractionMove_validView; exact H.
    + cbn zeta.
      destruct (pinchState st) as [[j d0 iw ih cx cy | d0 vt0 mid]|]; [exact H| |exact H].
      destruct rect as [r|]; [|exact H].
      cbn [viewTransform setViewTransform]. unfold validView. cbn [scale].
      apply clampScale_between.
  - unfold handleTouchEnd. destruct (List.length ts <? 2)%nat; exact H.
Qed.

Lemma selected_action_validView (st : State) :
  validView (viewTransform st) ->
  validView (viewTransform (handleDeleteSelected st)) /\
  validView (viewTransform (handleRegenerateSelected st)) /\
  validView (viewTransform (handleFlipSelected st)) /\
  validView (viewTransform (handleDuplicateSelected st)).
Proof.
  intros H.
  unfold handleDeleteSelected, handleRegenerateSelected, handleFlipSelected,
    handleDuplicateSelected.
  destruct (isActionDisabled st || negb (isSome (selectedImage st)));
    [split; [|split; [|split]]; exact H|].
  destruct (selectedImageId st) as [k|]; [|split; [|split; [|split]]; exact H].
  destruct (findById k (images st)); split; [|split; [|split]| |split; [|split]]; exact H.
Qed.

Lemma handleKeyDown_validView (focused : bool) (key : string) (st : State) :
  validView (viewTransform st) -> validView (viewTransform (handleKeyDown focused key st)).
Proof.
  intros H. destruct (selected_action_validView st H) as (H1 & H2 & H3 & H4).
  unfold handleKeyDown.
  destruct focused; [exact H|].
  destruct (String.eqb key "m" && isSome (selectedImageId st)).
  { destruct (selectedImageId st); exact H. }
  destruct (negb (isSome (selectedImageId st)) || isActionDisabled st); [exact H|].
  destruct (includes arrowKeys key).
  { destruct (selectedImageId st) as [k|]; [|exact H].
    destruct (findById k (images st)); exact H. }
  destruct (String.eqb key "Delete" || String.eqb key "Backspace"); [exact H1|].
  destruct (String.eqb key "r"); [exact H2|].
  destruct (String.eqb key "f"); [exact H3|].
  destruct (String.eqb key "d"); [exact H4|exact H].
Qed.

Lemma step_validView (hypot : Q -> Q -> Q) (trim : string -> string) (st : State)
    (a : Action) :
  validView (viewTransform st) -> validView (viewTransform (step hypot trim st a)).
Proof.
  intros H. destruct (selected_action_validView st H) as (H1 & H2 & H3 & H4).
  destruct a; cbn [step].
  - apply dispatch_validView; exact H.
  - apply handleKeyDown_validView; exact H.
  - exact H2.
  - exact H3.
  - exact H4.
  - exact H1.
  - unfold handleTextSubmit. cbn zeta.
    destruct (String.eqb (trim textInput) ""); exact H.
  - exact H.
  - unfold handleRemixSubmit.
    destruct (isActionDisabled st || negb (isSome (selectedImage st))); [exact H|].
    destruct (selectedImageId st) as [k|]; [|exact H].
    destruct (findById k (images st)) as [src|]; [|exact H].
    destruct (processedImage src); [|exact H].
    destruct remixFile; exact H.
  - destruct g; exact H.
  - destruct g; exact H.
  - unfold validView, between; cbn. split; discriminate.
Qed.

(** In every state a session reaches, every object's width is within
    [[50, 1000]] and the view scale is within [[0.2, 3.0]], provided each
    two-finger gesture starts from two distinct touch points (so that the
    pinch ratio is a number). *)
Theorem session_sizes_in_range (hypot : Q -> Q -> Q) (trim : string -> string)
    (actions : list Action) :
  Forall (properAction hypot) actions ->
  Forall widthClamped (images (session hypot trim actions)) /\
  validView (viewTransform (session hypot trim actions)).
Proof.
  intros _. unfold session.
  assert (H0 : Forall widthClamped (images initialState) /\
               validView (viewTransform initialState)).
  { split; [constructor|]. unfold validView, between; cbn. split; discriminate. }
  revert H0. generalize initialState as st.
  induction actions as [|a actions IH]; intros st Hst; cbn [fold_left]; [exact Hst|].
  apply IH. destruct Hst as [Hw Hv]. split.
  - apply (Evolves_widths st); [apply step_evolves|exact Hw].
  - apply step_validView; exact Hv.
Qed.

Lemma session_sizes_in_range_witness :
  Forall widthClamped (images (session axisHypot (fun s => s) sampleSession)) /\
  validView (viewTransform (session axisHypot (fun s => s) sampleSession)).
Proof.
  apply (session_sizes_in_range axisHypot (fun s => s) sampleSession).
  unfold sampleSession. repeat constructor. cbn. discriminate.
Defined.

End SessionLaws.

(* ================================================================== *)
(** * Further facts about the interaction controller *)
(* ================================================================== *)

Module ControllerLaws.

Import Coordinates Scene SceneFacts.
Local Open Scope Q_scope.

(** ** Hit-testing *)

Lemma hits_iff (wx wy : Q) (img : ProcessedImage) :
  hits wx wy img = true <->
  insideRectangle wx wy img /\
  (isGenerating img = true \/
   exists p, processedImage img = Some p /\ insideContent wx wy img p).
Proof.
  unfold hits. rewrite andb_true_iff, orb_true_iff, inRectangle_iff.
  split; intros [Hr Hc]; (split; [exact Hr|]).
  - destruct Hc as [Hg|Hc]; [left; exact Hg|right].
    destruct (processedImage img) as [p|] eqn:Hp.
    + exists p. split; [reflexivity|]. apply (inContent_iff _ _ _ p Hp). exact Hc.
    + unfold inContent in Hc. rewrite Hp in Hc. discriminate Hc.
  - destruct Hc as [Hg|(p & Hp & Hc)]; [left; exact Hg|right].
    apply (inContent_iff _ _ _ p Hp). exact Hc.
Qed.

(** In a valid scene, the object hit-testing returns is in the scene, has
    the world point in its rectangle and, unless it is generating, in its
    scaled content bounds; and hit-testing returns nothing only when no
    object of the scene meets these conditions. *)
Theorem hit_test_sound_and_complete
    (vt : ViewTransform Q) (images : list ProcessedImage) (sx sy : Q) :
  validView vt -> Forall validImage images ->
  let w := screenToWorld exact vt {| px := sx; py := sy |} in
  let meets img :=
    insideRectangle (px w) (py w) img /\
    (isGenerating img = true \/
     exists p, processedImage img = Some p /\ insideContent (px w) (py w) img p) in
  match getImageAtPosition vt images sx sy with
  | Some img => In img images /\ meets img
  | None => forall img, In img images -> ~ meets img
  end.
Proof.
  intros _ _. cbn zeta. rewrite getImageAtPosition_find. cbn zeta.
  destruct (find _ _) as [img|] eqn:Hfind.
  - apply find_some in Hfind. destruct Hfind as [Hin Hhit].
    split; [apply in_rev; exact Hin|]. apply hits_iff. exact Hhit.
  - intros img Hin Hmeets. apply hits_iff in Hmeets.
    rewrite (find_none _ _ Hfind img) in Hmeets; [discriminate Hmeets|].
    apply in_rev in Hin. exact Hin.
Qed.

Lemma hit_test_sound_and_complete_witness :
  In pending [finished; pending] /\
  insideRectangle 10 10 pending /\
  (isGenerating pending = true \/
   exists p, processedImage pending = Some p /\ insideContent 10 10 pending p).
Proof.
  refine (hit_test_sound_and_complete initialView [finished; pending] 10 10 _ _).
  - unfold validView, between; cbn; split; discriminate.
  - apply Forall_forall. intros o Ho p Hp. cbn in Ho.
    repeat (destruct Ho as [<-|Ho]; [inversion Hp; subst; split; reflexivity|]).
    contradiction.
Defined.

(** ** Pressing, dragging and panning *)

Lemma find_last_hit {A : Type} (f : A -> bool) (l : list A) (a : A) :
  f a = true -> find f (rev (l ++ [a])) = Some a.
Proof. intros H. rewrite rev_app_distr. cbn. rewrite H. reflexivity. Qed.



(** A press on an object selects it, makes it the last of the array (the
    front-most), keeps it under the pointer for the next hit test, and
    records a grab offset that lies within the object's rectangle. A press
    on empty canvas clears the selection and starts a pan from the
    pointer, leaving the objects alone. *)
Theorem press_selects_or_pans (r : DOMRect) (cx cy : Q) (st : State) :
  validView (viewTransform st) ->
  let st1 := handleInteractionStart (Some r) cx cy st in
  match getImageAtPosition (viewTransform st) (images st) (cx - left r) (cy - top r) with
  | Some target =>
      images st1 = removeId (id target) (images st) ++ [target] /\
      selectedImageId st1 = Some (id target) /\
      getImageAtPosition (viewTransform st1) (images st1) (cx - left r) (cy - top r)
        = Some target /\
      exists d, draggingImage st1 = Some d /\ dragId d = id target /\
                between 0 (width target) (dragOffsetX d) /\
                between 0 (height target) (dragOffsetY d)
  | None =>
      images st1 = images st /\ selectedImageId st1 = None /\
      isPanning st1 = true /\ panStart st1 = {| px := cx; py := cy |}
  end.
Proof.
  intros _. cbn zeta. unfold handleInteractionStart.
  destruct (getImageAtPosition _ _ _ _) as [target|] eqn:Hget.
  - pose proof (getImageAtPosition_hits _ _ _ _ _ Hget) as Hhit. cbn zeta in Hhit.
    cbn [images selectedImageId viewTransform draggingImage setImages setDraggingImage
         setSelectedImageId].
    split; [reflexivity|]. split; [reflexivity|]. split.
    + rewrite getImageAtPosition_find. cbn zeta. apply find_last_hit. exact Hhit.
    + eexists. split; [reflexivity|]. cbn [dragId dragOffsetX dragOffsetY].
      split; [reflexivity|].
      apply hits_iff in Hhit. destruct Hhit as [(H1 & H2 & H3 & H4) _].
      unfold between. split; split; lra.
  - cbn. repeat split.
Qed.

Lemma press_selects_or_pans_witness :
  let st1 := handleInteractionStart (Some windowRect) 100 100 (idle [finished; pending]) in
  images st1 = [finished; pending] /\ selectedImageId st1 = Some 1%nat.
Proof.
  pose proof (press_selects_or_pans windowRect 100 100 (idle [finished; pending])) as H.
  cbv zeta in H.
  assert (Hv : validView (viewTransform (idle [finished; pending])))
    by (unfold validView, between; cbn; split; discriminate).
  specialize (H Hv).
  change (getImageAtPosition (viewTransform (idle [finished; pending]))
            (images (idle [finished; pending])) (100 - left windowRect)
            (100 - top windowRect)) with (Some pending) in H.
  cbv beta iota in H. destruct H as (H1 & H2 & _).
  split; [exact H1|exact H2].
Defined.



(** While the canvas is panned, a pointer move shifts the view offset by
    the pointer's displacement since the last event, leaves scale and
    objects alone, and so shifts every world point on screen by that
    displacement; a second move composes with the first into the
    displacement since the pan started. *)
Theorem pan_translates_view (r : DOMRect) (cx cy cx2 cy2 : Q) (st : State) :
  draggingImage st = None -> isPanning st = true ->
  let st1 := handleInteractionMove (Some r) cx cy st in
  let st2 := handleInteractionMove (Some r) cx2 cy2 st1 in
  let dx := cx - px (panStart st) in
  let dy := cy - py (panStart st) in
  images st1 = images st /\
  scale (viewTransform st1) = scale (viewTransform st) /\
  offsetX (viewTransform st1) = offsetX (viewTransform st) + dx /\
  offsetY (viewTransform st1) = offsetY (viewTransform st) + dy /\
  (forall w,
     px (worldToScreen exact (viewTransform st1) w)
       == px (worldToScreen exact (viewTransform st) w) + dx /\
     py (worldToScreen exact (viewTransform st1) w)
       == py (worldToScreen exact (viewTransform st) w) + dy) /\
  offsetX (viewTransform st2) == offsetX (viewTransform st) + (cx2 - px (panStart st)) /\
  offsetY (viewTransform st2) == offsetY (viewTransform st) + (cy2 - py (panStart st)).
Proof.
  intros Hdrag Hpan. cbn zeta.
  assert (H1 : handleInteractionMove (Some r) cx cy st =
               setPanStart {| px := cx; py := cy |}
                 (setViewTransform
                    {| scale := scale (viewTransform st);
                       offsetX := offsetX (viewTransform st) + (cx - px (panStart st));
                       offsetY := offsetY (viewTransform st) + (cy - py (panStart st)) |}
                    st)).
  { unfold handleInteractionMove. rewrite Hdrag, Hpan. reflexivity. }
  rewrite H1.
  unfold handleInteractionMove at 1 2.
  cbn [draggingImage isPanning panStart viewTransform images setPanStart setViewTransform
       scale offsetX offsetY px py].
  rewrite Hdrag, Hpan.
  cbn [viewTransform images setPanStart setViewTransform scale offsetX offsetY px py].
  repeat split; try reflexivity; unfold worldToScreen; cbn; ring.
Qed.

Lemma pan_translates_view_witness :
  let st := handleInteractionStart (Some windowRect) 500 500 (idle [finished]) in
  let st1 := handleInteractionMove (Some windowRect) 520 510 st in
  offsetX (viewTransform st1) = offsetX (viewTransform st) + (520 - px (panStart st)).
Proof.
  refine (proj1 (proj2 (proj2 (pan_translates_view windowRect 520 510 0 0
            (handleInteractionStart (Some windowRect) 500 500 (idle [finished])) _ _)))).
  - reflexivity.
  - reflexivity.
Defined.

(** ** Scaling and zooming *)

(** Scaling an object, by the wheel or by a pinch, keeps its centre where
    it was (for the pinch: where it was when the pinch began) and keeps
    its aspect ratio (for the pinch: the one it had when the pinch began). *)
Theorem scaling_keeps_centre_and_aspect
    (scaleFactor iw ih cx cy ratio : Q) (img : ProcessedImage) :
  ~ width img == 0 -> ~ height img == 0 -> ~ iw == 0 ->
  let wheeled := wheelScaled scaleFactor img in
  let pinched := pinchScaled iw ih cx cy ratio img in
  x wheeled + width wheeled / 2 == x img + width img / 2 /\
  y wheeled + height wheeled / 2 == y img + height img / 2 /\
  height wheeled * width img == width wheeled * height img /\
  x pinched + width pinched / 2 == cx /\
  y pinched + height pinched / 2 == cy /\
  height pinched * iw == width pinched * ih.
Proof.
  intros Hw Hh Hiw. cbn zeta. unfold wheelScaled, pinchScaled. cbn zeta.
  cbn [x y width height withGeometry].
  repeat split; try ring; field; auto.
Qed.

Lemma scaling_keeps_centre_and_aspect_witness :
  let wheeled := wheelScaled 1.1 finished in
  let pinched := pinchScaled 200 200 100 100 2 finished in
  x wheeled + width wheeled / 2 == x finished + width finished / 2 /\
  y wheeled + height wheeled / 2 == y finished + height finished / 2 /\
  height wheeled * width finished == width wheeled * height finished /\
  x pinched + width pinched / 2 == 100 /\
  y pinched + height pinched / 2 == 100 /\
  height pinched * 200 == width pinched * 200.
Proof.
  apply (scaling_keeps_centre_and_aspect 1.1 200 200 100 100 2 finished);
    cbn; discriminate.
Defined.



(** ** Generation completions *)

(** When a generation succeeds for an object still in the scene, the
    object stops generating, shows the processed image at width 375 with
    the image's aspect ratio, keeps its centre and its id, and takes the
    content bounds and suggestions of the result; objects with another id
    are untouched. The same holds for [generateFromText]. *)
Theorem completion_fits_image
    (k : nat) (url : string) (t : HTMLImageElement) (cb : Bounds) (sug : list string)
    (st : State) (img : ProcessedImage) :
  In img (images st) -> id img = k -> 0 < imgWidth t -> 0 < imgHeight t ->
  let fits img' :=
    isGenerating img' = false /\ id img' = k /\
    processedImage img' = Some t /\ contentBounds img' = cb /\
    remixSuggestions img' = Some sug /\
    width img' = 375 /\ height img' * imgWidth t == 375 * imgHeight t /\
    x img' + width img' / 2 == x img + width img / 2 /\
    y img' + height img' / 2 == y img + height img / 2 in
  let fromImage := generateFromImage k (Succeeded url t cb sug) st in
  let fromText := generateFromText k (Succeeded url t cb sug) st in
  (exists img', In img' (images fromImage) /\ fits img') /\
  (exists img', In img' (images fromText) /\ fits img') /\
  (forall o, In o (images st) -> id o <> k ->
     In o (images fromImage) /\ In o (images fromText)).
Proof.
  intros Hin Hid Hw Hh. cbn zeta.
  assert (Hw' : ~ imgWidth t == 0) by (intros Hz; lra).
  assert (Hh' : ~ imgHeight t == 0) by (intros Hz; lra).
  assert (Hmem : forall f, In (f img) (updateId k f (images st))).
  { intros f. unfold updateId. apply in_map_iff. exists img.
    split; [|exact Hin]. rewrite Hid, Nat.eqb_refl. reflexivity. }
  split; [|split].
  - exists (completedFromImage url t cb sug img). split; [apply Hmem|].
    unfold completedFromImage, IMAGE_WIDTH; cbn.
    repeat split; try assumption; try reflexivity; try ring; field; auto.
  - exists (completedFromText url t cb sug img). split; [apply Hmem|].
    unfold completedFromText, IMAGE_WIDTH; cbn.
    repeat split; try assumption; try reflexivity; try ring; field; auto.
  - intros o Ho Hne. cbn [generateFromImage generateFromText images setImages].
    assert (Hkeep : forall f, In o (updateId k f (images st))).
    { intros f. unfold updateId. apply in_map_iff. exists o. split; [|exact Ho].
      destruct (Nat.eqb_spec (id o) k); [contradiction|reflexivity]. }
    split; apply Hkeep.
Qed.

Lemma completion_fits_image_witness :
  exists img',
    In img' (images (generateFromText 1 (Succeeded "data:image/png;base64,new" sprite
                       {| bx := 10; by_ := 10; bwidth := 80; bheight := 80 |} [])
                       (idle [finished; pending]))) /\
    isGenerating img' = false /\ width img' = 375.
Proof.
  destruct (proj1 (proj2 (completion_fits_image 1 "data:image/png;base64,new" sprite
              {| bx := 10; by_ := 10; bwidth := 80; bheight := 80 |} []
              (idle [finished; pending]) pending
              (or_intror (or_introl eq_refl)) eq_refl eq_refl eq_refl)))
    as (img' & Hin & Hgen & _ & _ & _ & _ & Hwidth & _).
  exists img'. split; [exact Hin|]. split; [exact Hgen|exact Hwidth].
Defined.

(** ** Actions on the selection *)

Lemma findById_updateId (k : nat) (f : ProcessedImage -> ProcessedImage)
    (l : list ProcessedImage) :
  (forall img, id (f img) = id img) ->
  findById k (updateId k f l) = option_map f (findById k l).
Proof.
  intros Hf. unfold findById, updateId. induction l as [|a l IH]; [reflexivity|].
  cbn [map find]. destruct (Nat.eqb (id a) k) eqn:E.
  - rewrite Hf, E. reflexivity.
  - rewrite E. exact IH.
Qed.

(** While nothing is selected, or the selected id is no longer in the
    scene, or the selected object is generating, no content action does
    anything: delete, regenerate, flip, duplicate and remix leave the state
    as it is, and so does every key except [m]; with a text field focused
    every key does. *)
Theorem disabled_actions_do_nothing (st : State) :
  isActionDisabled st = true ->
  handleDeleteSelected st = st /\
  handleRegenerateSelected st = st /\
  handleFlipSelected st = st /\
  handleDuplicateSelected st = st /\
  (forall remixFile prompt, handleRemixSubmit remixFile prompt st = st) /\
  (forall key, key <> "m"%string -> handleKeyDown false key st = st) /\
  (forall key st0, handleKeyDown true key st0 = st0).
Proof.
  intros Hdis.
  unfold handleDeleteSelected, handleRegenerateSelected, handleFlipSelected,
    handleDuplicateSelected, handleRemixSubmit, handleKeyDown.
  rewrite Hdis. cbn [orb].
  repeat split.
  intros key Hkey. apply String.eqb_neq in Hkey. rewrite Hkey. cbn [andb].
  rewrite orb_true_r. reflexivity.
Qed.

Lemma disabled_actions_do_nothing_witness :
  handleDeleteSelected (idle [pending]) = idle [pending] /\
  handleKeyDown false "ArrowLeft" (idle [pending]) = idle [pending].
Proof.
  destruct (disabled_actions_do_nothing (idle [pending]) eq_refl)
    as (Hdel & _ & _ & _ & _ & Hkey & _).
  split; [exact Hdel|]. apply Hkey. discriminate.
Defined.

(** What one flip does to the flag of an object. *)
Lemma handleFlipSelected_cases (st : State) :
  handleFlipSelected st = st \/
  exists k sel,
    selectedImageId st = Some k /\ findById k (images st) = Some sel /\
    isGenerating sel = false /\
    handleFlipSelected st =
      setImages
        (updateId k (fun img =>
           withFlipped img (Some (negb (truthyBool (flippedHorizontally img)))))) st.
Proof.
  unfold handleFlipSelected, isActionDisabled, selectedImage.
  destruct (selectedImageId st) as [k|]; [|left; reflexivity].
  destruct (findById k (images st)) as [sel|] eqn:Hfind; [|left; reflexivity].
  destruct (isGenerating sel) eqn:Hgen; [left; reflexivity|].
  right. exists k, sel.
  split; [reflexivity|]. split; [exact Hfind|]. split; [exact Hgen|reflexivity].
Qed.

(** Flipping twice restores every object: the flag reads as before and
    nothing else has changed. *)
Theorem flip_twice_restores (st : State) :
  let st2 := handleFlipSelected (handleFlipSelected st) in
  map eraseFlip (images st2) = map eraseFlip (images st) /\
  map (fun img => truthyBool (flippedHorizontally img)) (images st2) =
  map (fun img => truthyBool (flippedHorizontally img)) (images st) /\
  selectedImageId st2 = selectedImageId st.
Proof.
  cbn zeta.
  destruct (handleFlipSelected_cases st) as [Hsame|(k & sel & Hsel & Hfind & Hgen & H1)].
  { rewrite !Hsame. repeat split. }
  set (flip := fun img : ProcessedImage =>
         withFlipped img (Some (negb (truthyBool (flippedHorizontally img))))) in *.
  rewrite H1.
  assert (H2 : handleFlipSelected (setImages (updateId k flip) st) =
               setImages (updateId k flip) (setImages (updateId k flip) st)).
  { unfold handleFlipSelected, isActionDisabled, selectedImage.
    cbn [selectedImageId images setImages]. rewrite Hsel.
    rewrite (findById_updateId k flip) by reflexivity.
    rewrite Hfind. cbn [option_map]. unfold flip at 1 2. cbn [isGenerating withFlipped].
    rewrite Hgen. reflexivity. }
  rewrite H2. cbn [images setImages selectedImageId].
  split; [|split; [|reflexivity]].
  - unfold updateId. rewrite !map_map. apply map_ext. intros img.
    destruct (Nat.eqb (id img) k) eqn:E.
    + replace (id (flip img)) with (id img) by reflexivity. rewrite E. reflexivity.
    + rewrite E. reflexivity.
  - unfold updateId. rewrite !map_map. apply map_ext. intros img.
    destruct (Nat.eqb (id img) k) eqn:E.
    + replace (id (flip img)) with (id img) by reflexivity. rewrite E.
      unfold flip. cbn [flippedHorizontally withFlipped truthyBool].
      destruct (flippedHorizontally img) as [[|]|]; reflexivity.
    + rewrite E. reflexivity.
Qed.

(** Regenerating puts the selected object into the generating state with
    its image kept, and from then on the content actions are disabled: a
    second regenerate does nothing. *)
Theorem regenerate_is_single_flight (st : State) (sel : ProcessedImage) :
  selectedImage st = Some sel -> isGenerating sel = false ->
  let st1 := handleRegenerateSelected st in
  selectedImage st1 = Some (regenerating sel) /\
  processedImage (regenerating sel) = processedImage sel /\
  isActionDisabled st1 = true /\
  handleRegenerateSelected st1 = st1.
Proof.
  intros Hsel Hgen. cbn zeta.
  assert (Hen : isActionDisabled st = false) by (unfold isActionDisabled; rewrite Hsel; exact Hgen).
  unfold selectedImage in Hsel.
  destruct (selectedImageId st) as [k|] eqn:Hid; [|discriminate Hsel].
  assert (H1 : handleRegenerateSelected st = setImages (updateId k regenerating) st).
  { unfold handleRegenerateSelected. rewrite Hen. unfold selectedImage.
    rewrite Hid, Hsel. reflexivity. }
  rewrite H1.
  assert (Hsel1 : selectedImage (setImages (updateId k regenerating) st)
                  = Some (regenerating sel)).
  { unfold selectedImage. cbn [selectedImageId images setImages]. rewrite Hid.
    rewrite (findById_updateId k regenerating) by reflexivity.
    rewrite Hsel. reflexivity. }
  assert (Hdis1 : isActionDisabled (setImages (updateId k regenerating) st) = true).
  { unfold isActionDisabled. rewrite Hsel1. reflexivity. }
  split; [exact Hsel1|]. split; [reflexivity|]. split; [exact Hdis1|].
  unfold handleRegenerateSelected. rewrite Hdis1. reflexivity.
Qed.

Lemma regenerate_is_single_flight_witness :
  let st1 := handleRegenerateSelected (idle [finished]) in
  selectedImage st1 = Some (regenerating finished) /\
  processedImage (regenerating finished) = processedImage finished /\
  isActionDisabled st1 = true /\
  handleRegenerateSelected st1 = st1.
Proof.
  apply (regenerate_is_single_flight (idle [finished]) finished); reflexivity.
Defined.

(** ** Creating objects *)

(** A blank prompt creates nothing. Otherwise the text placeholder, and
    likewise the image placeholder, is appended to the scene (front-most)
    with the next id, in the generating state, carrying its source, and
    centred on the drop point: the middle of the view, or the position
    given with a dropped file. *)
Theorem placeholders_centred_on_drop
    (trim : string -> string) (vp : Viewport) (textInput previewUrl : string)
    (file : File) (customPosition : option (Point Q)) (st : State) :
  validView (viewTransform st) ->
  let vt := viewTransform st in
  let centre img := {| px := x img + width img / 2; py := y img + height img / 2 |} in
  (trim textInput = EmptyString -> handleTextSubmit trim vp textInput st = st) /\
  (trim textInput <> EmptyString ->
   exists new,
     images (handleTextSubmit trim vp textInput st) = images st ++ [new] /\
     id new = nextId st /\ isGenerating new = true /\
     sourceText new = Some (trim textInput) /\
     samePoint (worldToScreen exact vt (centre new)) (viewCenter vp)) /\
  (exists new,
     images (addImageToCanvas vp previewUrl file customPosition st) = images st ++ [new] /\
     id new = nextId st /\ isGenerating new = true /\
     sourceFile new = Some file /\
     samePoint (worldToScreen exact vt (centre new))
       match customPosition with Some p => p | None => viewCenter vp end).
Proof.
  intros [Hlo Hhi]. cbn zeta.
  assert (Hs : ~ scale (viewTransform st) == 0)
    by (unfold MIN_SCALE in Hlo; intros Hz; lra).
  split; [|split].
  - intros Hblank. unfold handleTextSubmit. cbn zeta. rewrite Hblank. reflexivity.
  - intros Htext. unfold handleTextSubmit. cbn zeta.
    apply String.eqb_neq in Htext. rewrite Htext.
    eexists. split; [reflexivity|].
    unfold textPlaceholder, PLACEHOLDER_WIDTH, samePoint, worldToScreen, screenToWorld;
      cbn.
    repeat split; field; exact Hs.
  - unfold addImageToCanvas. cbn zeta.
    eexists. split; [reflexivity|].
    unfold imagePlaceholder, PLACEHOLDER_WIDTH, samePoint, worldToScreen, screenToWorld;
      cbn.
    repeat split; field; exact Hs.
Qed.

Lemma placeholders_centred_on_drop_witness :
  exists new,
    images (handleTextSubmit (fun s => s) window "banana"%string (idle [finished])) =
      images (idle [finished]) ++ [new] /\
    id new = nextId (idle [finished]) /\ isGenerating new = true.
Proof.
  assert (Hv : validView (viewTransform (idle [finished])))
    by (unfold validView, between; cbn; split; discriminate).
  assert (Htext : (fun s : string => s) "banana"%string <> EmptyString) by discriminate.
  destruct (proj1 (proj2 (placeholders_centred_on_drop (fun s => s) window
              "banana"%string "blob:preview"%string "photo.png"%string None
              (idle [finished]) Hv)) Htext)
    as (new & Himg & Hid & Hgen & _).
  exists new. split; [exact Himg|]. split; [exact Hid|exact Hgen].
Defined.

(** A dropped image file gets its placeholder centred under the pointer;
    a dropped file of another type, or an empty drop, changes nothing,
    even when a later file of the drop is an image. *)
Theorem dropped_image_lands_under_pointer
    (createObjectURL : File -> string) (r : DOMRect) (vp : Viewport)
    (first : Upload) (others : list Upload) (cx cy : Q) (st : State) :
  validView (viewTransform st) ->
  let st' := handleDrop createObjectURL (Some r) vp (first :: others) cx cy st in
  (isImageType (uploadType first) = false -> st' = st) /\
  (isImageType (uploadType first) = true ->
   exists new,
     images st' = images st ++ [new] /\
     sourceFile new = Some (upload first) /\
     sourcePreviewUrl new = Some (createObjectURL (upload first)) /\
     samePoint
       (worldToScreen exact (viewTransform st)
          {| px := x new + width new / 2; py := y new + height new / 2 |})
       {| px := cx - left r; py := cy - top r |}) /\
  handleDrop createObjectURL (Some r) vp [] cx cy st = st.
Proof.
  intros [Hlo Hhi]. cbn zeta.
  assert (Hs : ~ scale (viewTransform st) == 0)
    by (unfold MIN_SCALE in Hlo; intros Hz; lra).
  unfold handleDrop. split; [|split; [|reflexivity]].
  - intros ->. reflexivity.
  - intros ->. unfold addImageToCanvas. cbn zeta.
    eexists. split; [reflexivity|].
    unfold imagePlaceholder, PLACEHOLDER_WIDTH, samePoint, worldToScreen, screenToWorld;
      cbn.
    repeat split; field; exact Hs.
Qed.

Lemma dropped_image_lands_under_pointer_witness :
  handleDrop (fun f => ("blob:" ++ f)%string) (Some windowRect) window
    [ {| upload := "notes.txt"%string; uploadType := "text/plain"%string |};
      {| upload := "photo.png"%string; uploadType := "image/png"%string |} ]
    300 200 (idle [finished])
  = idle [finished].
Proof.
  refine (proj1 (dropped_image_lands_under_pointer (fun f => ("blob:" ++ f)%string)
            windowRect window
            {| upload := "notes.txt"%string; uploadType := "text/plain"%string |}
            [ {| upload := "photo.png"%string; uploadType := "image/png"%string |} ]
            300 200 (idle [finished]) _) _).
  - unfold validView, between; cbn; split; discriminate.
  - reflexivity.
Defined.

(** A paste adds the file of the first clipboard item that is an image
    and yields a file, passing over image items that yield none, and adds
    it at the view centre; a paste without such an item, or without
    clipboard data, changes nothing. *)
Theorem paste_takes_first_image_file
    (createObjectURL : File -> string) (vp : Viewport) (items : list ClipboardItem)
    (st : State) :
  let usable item := isImageType (itemType item) && isSome (getAsFile item) in
  match find usable items with
  | Some item =>
      exists file, getAsFile item = Some file /\
        handlePaste createObjectURL vp (Some items) st =
        addImageToCanvas vp (createObjectURL file) file None st
  | None => handlePaste createObjectURL vp (Some items) st = st
  end /\
  handlePaste createObjectURL vp None st = st.
Proof.
  cbn zeta. split; [|reflexivity]. unfold handlePaste.
  induction items as [|item rest IH]; [reflexivity|].
  cbn [find pastedImage].
  destruct (isImageType (itemType item)); cbn [andb]; [|exact IH].
  destruct (getAsFile item) as [file|] eqn:Hfile; cbn [isSome]; [|exact IH].
  exists file. split; [exact Hfile|reflexivity].
Qed.

Lemma findById_snoc_fresh (k : nat) (l : list ProcessedImage) (new : ProcessedImage) :
  (forall img, In img l -> id img <> k) -> id new = k ->
  findById k (l ++ [new]) = Some new.
Proof.
  intros Hl Hk. unfold findById. induction l as [|a l IH]; cbn.
  - rewrite Hk, Nat.eqb_refl. reflexivity.
  - destruct (Nat.eqb_spec (id a) k) as [E|E].
    + exfalso. apply (Hl a); [left; reflexivity|exact E].
    + apply IH. intros img Hin. apply Hl. right; exact Hin.
Qed.

(** With fresh ids, duplicating or remixing the selected object [sel]
    appends a new object 40 right and 20 below it, of the same size and
    showing the same image, and selects it. The duplicate is a copy with
    a new id, and the content actions stay enabled; the remix placeholder
    is generating, so the content actions are disabled until it settles.
    When the image cannot be converted for the remix, the scene is
    unchanged. *)
Theorem copies_sit_beside_source
    (remixFile : File) (prompt : string) (st : State) (sel : ProcessedImage)
    (p : HTMLImageElement) :
  freshIds st ->
  selectedImage st = Some sel -> isGenerating sel = false ->
  processedImage sel = Some p ->
  let dup := handleDuplicateSelected st in
  let remix := handleRemixSubmit (Some remixFile) prompt st in
  let beside new :=
    id new = nextId st /\ x new = x sel + 40 /\ y new = y sel + 20 /\
    width new = width sel /\ height new = height sel /\
    processedImage new = Some p in
  (exists new, images dup = images st ++ [new] /\ selectedImage dup = Some new /\
               beside new /\ new = duplicated sel (nextId st) /\
               isActionDisabled dup = false) /\
  (exists new, images remix = images st ++ [new] /\ selectedImage remix = Some new /\
               beside new /\ isGenerating new = true /\
               generatingPrompt new = Some prompt /\
               isActionDisabled remix = true) /\
  images (handleRemixSubmit None prompt st) = images st.
Proof.
  intros [_ Hlt] Hsel Hgen Hp. cbn zeta.
  assert (Hen : isActionDisabled st = false)
    by (unfold isActionDisabled; rewrite Hsel; exact Hgen).
  assert (Hfresh : forall img, In img (images st) -> id img <> nextId st).
  { rewrite Forall_forall in Hlt. intros img Hin. specialize (Hlt img Hin). lia. }
  unfold handleDuplicateSelected, handleRemixSubmit.
  rewrite Hen, Hsel. cbn [isSome negb orb].
  unfold selectedImage in Hsel.
  destruct (selectedImageId st) as [k|]; [|discriminate Hsel].
  rewrite Hsel, Hp.
  split; [|split; [|reflexivity]].
  - exists (duplicated sel (nextId st)).
    assert (Hs : selectedImage
                   (setSelectedImageId (Some (nextId st))
                      (setImages (fun prev => prev ++ [duplicated sel (nextId st)])
                         (setNextId (S (nextId st)) st)))
                 = Some (duplicated sel (nextId st))).
    { unfold selectedImage. cbn [selectedImageId images setSelectedImageId setImages setNextId].
      apply findById_snoc_fresh; [exact Hfresh|reflexivity]. }
    split; [reflexivity|]. split; [exact Hs|].
    split; [cbn; rewrite Hp; repeat split|].
    split; [reflexivity|].
    unfold isActionDisabled. rewrite Hs. exact Hgen.
  - exists (remixPlaceholder (nextId st) remixFile prompt sel).
    assert (Hs : selectedImage
                   (setSelectedImageId (Some (nextId st))
                      (setImages
                         (fun prev => prev ++ [remixPlaceholder (nextId st) remixFile prompt sel])
                         (setNextId (S (nextId st)) st)))
                 = Some (remixPlaceholder (nextId st) remixFile prompt sel)).
    { unfold selectedImage. cbn [selectedImageId images setSelectedImageId setImages setNextId].
      apply findById_snoc_fresh; [exact Hfresh|reflexivity]. }
    split; [reflexivity|]. split; [exact Hs|].
    split; [cbn; rewrite Hp; repeat split|].
    split; [reflexivity|]. split; [reflexivity|].
    unfold isActionDisabled. rewrite Hs. reflexivity.
Qed.

Lemma copies_sit_beside_source_witness :
  exists new,
    images (handleDuplicateSelected (idle [finished])) = images (idle [finished]) ++ [new] /\
    selectedImage (handleDuplicateSelected (idle [finished])) = Some new.
Proof.
  assert (Hfresh : freshIds (idle [finished])).
  { split; [repeat constructor; intros []|]. repeat constructor. }
  destruct (proj1 (copies_sit_beside_source "remix_of_0.png"%string "Make it blue"%string
              (idle [finished]) finished sprite Hfresh eq_refl eq_refl eq_refl))
    as (new & Himg & Hsel & _).
  exists new. split; [exact Himg|exact Hsel].
Defined.

(** ** The suggestion carousel *)

(** After a tick of the carousel the index names one of the selected
    object's suggestions, whatever it was before; and a click while the
    index names none (a stale index) submits nothing. *)
Theorem suggestion_index_in_range (prev : nat) (l : list string) :
  l <> [] ->
  (exists suggestion, nth_error l (nextSuggestionIndex prev (Some l)) = Some suggestion) /\
  (forall remixFile i st sel,
     selectedImage st = Some sel -> remixSuggestions sel = Some l ->
     nth_error l i = None -> clickSuggestion remixFile i st = st).
Proof.
  intros Hl. split.
  - assert (Hlen : List.length l <> 0%nat).
    { destruct l; [contradiction|discriminate]. }
    unfold nextSuggestionIndex.
    apply Nat.eqb_neq in Hlen. rewrite Hlen. apply Nat.eqb_neq in Hlen.
    destruct (nth_error l (Nat.modulo (prev + 1) (List.length l))) as [s|] eqn:E.
    + exists s. reflexivity.
    + apply nth_error_None in E.
      pose proof (Nat.mod_upper_bound (prev + 1) (List.length l) Hlen). lia.
  - intros remixFile i st sel Hsel Hsug Hnone. unfold clickSuggestion.
    rewrite Hsel, Hsug, Hnone. reflexivity.
Qed.

Lemma suggestion_index_in_range_witness :
  exists suggestion,
    nth_error ["Make it blue"; "Add a hat"]%string
      (nextSuggestionIndex 7 (Some ["Make it blue"; "Add a hat"]%string))
    = Some suggestion.
Proof.
  refine (proj1 (suggestion_index_in_range 7 ["Make it blue"; "Add a hat"]%string _)).
  discriminate.
Defined.

End ControllerLaws.

(* ================================================================== *)
(** * Facts about splitting and line breaking *)
(* ================================================================== *)

Module TextLaws.

Import Text Scene SceneFacts.
Local Open Scope string_scope.

Lemma append_empty (s : string) : s ++ "" = s.
Proof. induction s as [|c s IH]; cbn; [reflexivity|rewrite IH; reflexivity]. Qed.

Lemma append_associative (a b c : string) : (a ++ b) ++ c = a ++ (b ++ c).
Proof. induction a as [|x a IH]; cbn; [reflexivity|rewrite IH; reflexivity]. Qed.

Lemma splitOn_nonempty (sep : ascii) (s : string) : splitOn sep s <> [].
Proof.
  destruct s as [|c rest]; cbn; [discriminate|].
  destruct (Ascii.eqb c sep); [discriminate|].
  destruct (splitOn sep rest); discriminate.
Qed.

(** Joining the pieces with the separator gives the string back. *)
Lemma join_splitOn (sep : ascii) (s : string) :
  String.concat (String sep "") (splitOn sep s) = s.
Proof.
  induction s as [|c rest IH]; [reflexivity|].
  cbn [splitOn]. destruct (Ascii.eqb_spec c sep) as [->|Hne].
  - pose proof (splitOn_nonempty sep rest) as Hn.
    destruct (splitOn sep rest) as [|w ws]; [contradiction|].
    change (String.concat (String sep "") ("" :: w :: ws))
      with ("" ++ String sep "" ++ String.concat (String sep "") (w :: ws)).
    cbn [append]. rewrite IH. reflexivity.
  - pose proof (splitOn_nonempty sep rest) as Hn.
    destruct (splitOn sep rest) as [|w ws]; [contradiction|].
    destruct ws as [|w2 ws].
    + change (String.concat (String sep "") [w]) with w in IH.
      change (String.concat (String sep "") [String c w]) with (String c w).
      rewrite IH. reflexivity.
    + change (String.concat (String sep "") (w :: w2 :: ws))
        with (w ++ String sep "" ++ String.concat (String sep "") (w2 :: ws)) in IH.
      change (String.concat (String sep "") (String c w :: w2 :: ws))
        with (String c w ++ String sep "" ++ String.concat (String sep "") (w2 :: ws)).
      cbn [append] in *. rewrite IH. reflexivity.
Qed.

(** No piece contains the separator. *)
Lemma splitOn_lacks (sep : ascii) (s : string) :
  Forall (fun piece => lacks sep piece = true) (splitOn sep s).
Proof.
  induction s as [|c rest IH]; [repeat constructor|].
  cbn [splitOn]. destruct (Ascii.eqb c sep) eqn:E.
  - constructor; [reflexivity|exact IH].
  - destruct (splitOn sep rest) as [|w ws].
    + repeat constructor. cbn. rewrite E. reflexivity.
    + inversion IH as [|? ? Hw Hws]; subst. constructor; [|exact Hws].
      cbn. rewrite E, Hw. reflexivity.
Qed.

(** A string without the separator in front of other text stays in the
    first piece. *)
Lemma splitOn_prefix (sep : ascii) (a s : string) :
  lacks sep a = true ->
  splitOn sep (a ++ s) =
  match splitOn sep s with
  | w :: ws => (a ++ w) :: ws
  | [] => [a]
  end.
Proof.
  intros Ha. induction a as [|c a IH].
  - cbn [append]. pose proof (splitOn_nonempty sep s) as Hn.
    destruct (splitOn sep s); [contradiction|reflexivity].
  - cbn in Ha. apply andb_true_iff in Ha. destruct Ha as [Hc Ha].
    apply negb_true_iff in Hc.
    cbn [append splitOn]. rewrite Hc. rewrite (IH Ha).
    destruct (splitOn sep s); reflexivity.
Qed.

(** A string without the separator is its own single piece. *)
Lemma splitOn_whole (sep : ascii) (s : string) :
  lacks sep s = true -> splitOn sep s = [s].
Proof.
  intros H. pose proof (splitOn_prefix sep s "" H) as Hp.
  rewrite append_empty in Hp. cbn in Hp. rewrite append_empty in Hp. exact Hp.
Qed.

Lemma lacks_app (sep : ascii) (a b : string) :
  lacks sep a = true -> lacks sep b = true -> lacks sep (a ++ b) = true.
Proof.
  intros Ha Hb. induction a as [|c a IH]; [exact Hb|].
  cbn in *. apply andb_true_iff in Ha. destruct Ha as [Hc Ha].
  rewrite Hc, (IH Ha). reflexivity.
Qed.

(** ** Line breaking *)

Section WrapLaws.
Variable measureText : string -> Q.
Variable maxWidth : Q.

Lemma flat_cons (x : string) (xs : list string) :
  String.concat "" (x :: xs) = x ++ String.concat "" xs.
Proof.
  destruct xs as [|y ys]; [cbn; rewrite append_empty; reflexivity|reflexivity].
Qed.

Lemma flat_app (l1 l2 : list string) :
  String.concat "" (l1 ++ l2) = String.concat "" l1 ++ String.concat "" l2.
Proof.
  induction l1 as [|x l1 IH]; [reflexivity|].
  cbn [app]. rewrite !flat_cons, IH, append_associative. reflexivity.
Qed.

(** The loop neither drops nor reorders text. *)
Lemma wrapLoop_content (words : list string) : forall first line lines,
  let r := wrapLoop measureText maxWidth first words line lines in
  String.concat "" (snd r ++ [fst r]) =
  String.concat "" (lines ++ [line]) ++
  String.concat "" (map (fun w => w ++ " ") words).
Proof.
  induction words as [|w rest IH]; intros first line lines; cbn zeta.
  - cbn. rewrite append_empty. reflexivity.
  - cbn [wrapLoop map]. cbn zeta.
    destruct (Qltb maxWidth (measureText (line ++ w ++ " ")) && negb first).
    + specialize (IH false (w ++ " ") (lines ++ [line])%list). cbn zeta in IH. rewrite IH.
      rewrite !flat_app, !flat_cons. cbn [String.concat].
      rewrite !append_empty, !append_associative. reflexivity.
    + specialize (IH false (line ++ w ++ " ") lines). cbn zeta in IH. rewrite IH.
      rewrite !flat_app, !flat_cons. cbn [String.concat].
      rewrite !append_empty, !append_associative. reflexivity.
Qed.

Lemma words_with_spaces (words : list string) :
  words <> [] ->
  String.concat "" (map (fun w => w ++ " ") words) = String.concat " " words ++ " ".
Proof.
  induction words as [|w rest IH]; intros Hne; [contradiction|].
  destruct rest as [|w2 rest]; [reflexivity|].
  cbn [map]. rewrite flat_cons. cbn [map] in IH. rewrite IH by discriminate.
  change (String.concat " " (w :: w2 :: rest))
    with (w ++ " " ++ String.concat " " (w2 :: rest)).
  rewrite !append_associative. reflexivity.
Qed.

#[local] Abbreviation acceptable := (acceptable measureText maxWidth).

Lemma wrapLoop_acceptable (all words : list string) :
  forall (first : bool) (line : string) (lines : list string),
  (forall w, In w words -> In w all) ->
  Forall (acceptable all) lines ->
  (if first then line = "" /\ words <> [] else acceptable all line) ->
  let r := wrapLoop measureText maxWidth first words line lines in
  Forall (acceptable all) (snd r ++ [fst r])%list.
Proof.
  induction words as [|w rest IH]; intros first line lines Hall Hlines Hline; cbn zeta.
  - cbn. destruct first; [destruct Hline as [_ Hne]; contradiction|].
    apply Forall_app. split; [exact Hlines|]. constructor; [exact Hline|constructor].
  - cbn [wrapLoop]. cbn zeta.
    assert (Hw : In w all) by (apply Hall; left; reflexivity).
    assert (Hrest : forall w', In w' rest -> In w' all)
      by (intros w' Hin; apply Hall; right; exact Hin).
    destruct (Qltb maxWidth (measureText (line ++ w ++ " ")) && negb first) eqn:Hc.
    + apply andb_true_iff in Hc. destruct Hc as [_ Hf]. apply negb_true_iff in Hf.
      subst first. apply IH; [exact Hrest| |].
      * apply Forall_app. split; [exact Hlines|]. constructor; [exact Hline|constructor].
      * right. exists w. split; [exact Hw|reflexivity].
    + apply IH; [exact Hrest|exact Hlines|].
      destruct first.
      * destruct Hline as [-> _]. right. exists w. split; [exact Hw|reflexivity].
      * rewrite andb_true_r in Hc. unfold Qltb in Hc. apply negb_false_iff in Hc.
        left. apply Qle_bool_iff. exact Hc.
Qed.

(** The text loader's lines, put end to end, are the text followed by one
    space: no word is lost, repeated or moved. There is at least one line,
    and every line either fits the maximal width or holds a single word
    (one too wide to fit on any line). *)
Theorem wrapText_breaks_lines (text : string) :
  let lines := wrapText measureText maxWidth text in
  lines <> [] /\
  String.concat "" lines = text ++ " " /\
  Forall (fun line =>
            (measureText line <= maxWidth)%Q \/
            exists word, In word (splitOn " " text) /\ line = word ++ " ")
         lines.
Proof.
  cbn zeta. unfold wrapText.
  pose proof (wrapLoop_content (splitOn " " text) true "" []) as Hcontent.
  pose proof (wrapLoop_acceptable (splitOn " " text) (splitOn " " text) true "" []
                (fun w H => H) (Forall_nil _)
                (conj eq_refl (splitOn_nonempty " " text))) as Hacc.
  cbn zeta in Hcontent, Hacc.
  destruct (wrapLoop measureText maxWidth true (splitOn " " text) "" []) as [line lines].
  cbn [fst snd] in Hcontent, Hacc.
  split; [|split].
  - destruct lines; discriminate.
  - rewrite Hcontent. cbn [app String.concat append].
    rewrite words_with_spaces by apply splitOn_nonempty.
    rewrite join_splitOn. reflexivity.
  - exact Hacc.
Qed.
End WrapLaws.

End TextLaws.

(* ================================================================== *)
(** * Further facts about the generation client *)
(* ================================================================== *)

Module ServiceLaws.

Import Text Gemini TextLaws.
Local Open Scope string_scope.

Lemma find_snoc {A : Type} (f : A -> bool) (l : list A) (a : A) :
  find f (l ++ [a]) =
  match find f l with
  | Some x => Some x
  | None => if f a then Some a else None
  end.
Proof.
  induction l as [|x l IH]; cbn; [reflexivity|].
  destruct (f x); [reflexivity|exact IH].
Qed.

Lemma hasImage_eq (p : Part) :
  hasImage p = match inlineData p with Some (_, String _ _) => true | _ => false end.
Proof. unfold hasImage. destruct (inlineData p) as [[m [|c d]]|]; reflexivity. Qed.

Lemma hasText_eq (p : Part) :
  hasText p =
  (negb (hasImage p) && match text p with Some (String _ _) => true | _ => false end)%bool.
Proof. unfold hasText. destruct (text p) as [[|c t]|]; reflexivity. Qed.

(** The loop keeps the last image and the last text. *)
Lemma readParts_last (parts : list Part) : forall imageUrl txt,
  readParts parts imageUrl txt =
  (match lastPart hasImage parts with
   | Some p => Some (imageUrlOf p)
   | None => imageUrl
   end,
   match lastPart hasText parts with
   | Some p => text p
   | None => txt
   end).
Proof.
  unfold lastPart.
  induction parts as [|a rest IH]; intros imageUrl txt; [reflexivity|].
  cbn [readParts rev]. rewrite !find_snoc.
  rewrite (hasText_eq a), (hasImage_eq a).
  destruct (inlineData a) as [[mime [|c data]]|] eqn:Hi;
    destruct (text a) as [[|c' t]|] eqn:Ht;
    rewrite IH; cbn [negb andb];
    destruct (find hasImage (rev rest)); destruct (find hasText (rev rest));
    try reflexivity;
    unfold imageUrlOf; rewrite ?Hi, ?Ht; reflexivity.
Qed.

(** With the API key set and a first candidate with content, both image
    calls return the URL built from the last part that carries image data,
    together with the last text part's text; when no part carries image
    data they throw, with that text as message if there is one. *)
Theorem image_response_last_part_wins
    (w : ImageWorld) (imageFile prompt : string) (parts : list Part)
    (others : list (option (list Part))) :
  missing (imageApiKey w) = false ->
  request w = Some (Some (Some parts :: others)) ->
  let lastText :=
    match lastPart hasText parts with Some p => text p | None => None end in
  let outcome :=
    match lastPart hasImage parts with
    | Some p => Returns (imageUrlOf p, lastText)
    | None =>
        Throws match lastText with
               | Some t => t
               | None => "No image was generated in the API response."
               end
    end in
  generateImageFromText w prompt = outcome /\
  (forall base64, readFile w imageFile = Some base64 ->
     generateImageWithPrompt w imageFile prompt = outcome).
Proof.
  intros Hkey Hreq. cbn zeta.
  assert (Hread : readImageResponse (Some (Some parts :: others)) =
    match lastPart hasImage parts with
    | Some p =>
        Returns (imageUrlOf p,
                 match lastPart hasText parts with Some p => text p | None => None end)
    | None =>
        Throws match match lastPart hasText parts with
                     | Some p => text p
                     | None => None
                     end with
               | Some t => t
               | None => "No image was generated in the API response."
               end
    end).
  { unfold readImageResponse. rewrite readParts_last.
    destruct (lastPart hasImage parts); reflexivity. }
  split.
  - unfold generateImageFromText. rewrite Hkey, Hreq. exact Hread.
  - intros base64 Hfile. unfold generateImageWithPrompt.
    rewrite Hkey, Hfile, Hreq. exact Hread.
Qed.

(** Neither image call returns without an image: a return means that the
    API key was set and that a part of the first candidate carried image
    data, from which the returned URL is built. *)
Theorem image_calls_return_an_image
    (w : ImageWorld) (imageFile prompt url : string) (txt : option string) :
  generateImageFromText w prompt = Returns (url, txt) \/
  generateImageWithPrompt w imageFile prompt = Returns (url, txt) ->
  missing (imageApiKey w) = false /\
  exists parts others p,
    request w = Some (Some (Some parts :: others)) /\
    In p parts /\ hasImage p = true /\ url = imageUrlOf p.
Proof.
  intros H.
  assert (Hcore : missing (imageApiKey w) = false /\
                  exists c, request w = Some c /\ readImageResponse c = Returns (url, txt)).
  { destruct H as [H|H].
    - unfold generateImageFromText in H.
      destruct (missing (imageApiKey w)); [discriminate H|]. split; [reflexivity|].
      destruct (request w) as [c|]; [|discriminate H]. exists c. split; [reflexivity|exact H].
    - unfold generateImageWithPrompt in H.
      destruct (missing (imageApiKey w)); [discriminate H|]. split; [reflexivity|].
      destruct (readFile w imageFile); [|discriminate H].
      destruct (request w) as [c|]; [|discriminate H]. exists c. split; [reflexivity|exact H]. }
  destruct Hcore as [Hkey (c & Hreq & Hread)]. split; [exact Hkey|].
  unfold readImageResponse in Hread.
  destruct c as [[|[parts|] others]|]; try discriminate Hread.
  rewrite readParts_last in Hread.
  destruct (lastPart hasImage parts) as [p|] eqn:Hp; [|discriminate Hread].
  exists parts, others, p. split; [exact Hreq|].
  unfold lastPart in Hp. apply find_some in Hp. destruct Hp as [Hin Himg].
  split; [apply in_rev; exact Hin|]. split; [exact Himg|].
  inversion Hread. reflexivity.
Qed.

Lemma image_calls_return_an_image_witness :
  missing (imageApiKey
             {| imageApiKey := Some "key"; readFile := fun _ => Some "iVBORw0KGgo=";
                request := Some (Some [Some [ {| inlineData := Some ("image/png", "AAAA");
                                                 text := None |} ]]) |}) = false /\
  exists parts others p,
    Some (Some [Some [ {| inlineData := Some ("image/png", "AAAA"); text := None |} ]])
      = Some (Some (Some parts :: others)) /\
    In p parts /\ hasImage p = true /\ dataUrl "image/png" "AAAA" = imageUrlOf p.
Proof.
  apply (image_calls_return_an_image
           {| imageApiKey := Some "key"; readFile := fun _ => Some "iVBORw0KGgo=";
              request := Some (Some [Some [ {| inlineData := Some ("image/png", "AAAA");
                                               text := None |} ]]) |}
           "photo.png" "a banana" (dataUrl "image/png" "AAAA") None).
  left. reflexivity.
Defined.

Lemma image_response_last_part_wins_witness :
  generateImageFromText
    {| imageApiKey := Some "key"; readFile := fun _ => Some "iVBORw0KGgo=";
       request := Some (Some [Some [ {| inlineData := Some ("image/png", "AAAA");
                                        text := None |};
                                     {| inlineData := None; text := Some "a banana" |};
                                     {| inlineData := Some ("image/png", "BBBB");
                                        text := None |} ]]) |}
    "a banana"
  = Returns (dataUrl "image/png" "BBBB", Some "a banana").
Proof.
  refine (proj1 (image_response_last_part_wins
            {| imageApiKey := Some "key"; readFile := fun _ => Some "iVBORw0KGgo=";
               request := Some (Some [Some [ {| inlineData := Some ("image/png", "AAAA");
                                                text := None |};
                                             {| inlineData := None; text := Some "a banana" |};
                                             {| inlineData := Some ("image/png", "BBBB");
                                                text := None |} ]]) |}
            "photo.png" "a banana" _ _ eq_refl eq_refl)).
Defined.

(** A data URL as the image calls build it gives its data back to
    [fileToBase64], when neither the MIME type nor the data hold a comma. *)
Theorem base64_of_data_url (mimeType data : string) :
  lacks "," mimeType = true -> lacks "," data = true ->
  base64Of (dataUrl mimeType data) = Some data.
Proof.
  intros Hm Hd. unfold base64Of, dataUrl.
  assert (Heq : "data:" ++ mimeType ++ ";base64," ++ data =
                ("data:" ++ mimeType ++ ";base64") ++ String "," data).
  { rewrite !append_associative. reflexivity. }
  rewrite Heq. rewrite splitOn_prefix.
  - cbn [splitOn]. rewrite Ascii.eqb_refl. rewrite (splitOn_whole "," data Hd).
    reflexivity.
  - apply (lacks_app "," "data:"); [reflexivity|].
    apply lacks_app; [exact Hm|reflexivity].
Qed.

Lemma base64_of_data_url_witness :
  base64Of (dataUrl "image/png" "iVBORw0KGgo=") = Some "iVBORw0KGgo=".
Proof.
  apply (base64_of_data_url "image/png" "iVBORw0KGgo="); reflexivity.
Defined.

End ServiceLaws.
